(** * CoNLL-2012 coreference reader: a shallow embedding of [lang.py] and
    [conll.py], and the properties of the reader that follow from the code.

    Conventions of the embedding.
    - A Python [str] is a [string]; the model covers ASCII text (the
      whitespace of [str.strip] and [str.split] is the ASCII part of
      Python's whitespace set, the digits of [int] are [0-9]).
    - A Python [int] is a [Z]; the index produced by [enumerate] is a [nat].
    - An open file handle is the list of the lines that [readline] has not
      returned yet; reading returns the rest of the list as the new handle.
    - The two [while] loops are not structural: the loop of
      [read_conll_document] is defined by well-founded recursion on the
      lines left, and the generator [read_conll_file] is a resumption
      function, one call per [next].
    - A call that can raise returns a [result]: [Ok v] or [Raise e].
    - The [defaultdict(list)] of [process_conll_document] is an association
      list in insertion order (the order of [dict] since Python 3.7). *)

From Stdlib Require Import List String Ascii ZArith Arith Bool Lia.
From Equations Require Import Equations.
Import ListNotations.

#[local] Open Scope string_scope.
#[local] Open Scope list_scope.

(* ===================================================================== *)
(** * Python built-ins used by the reader                                  *)
(* ===================================================================== *)

Module Py.

(** Exceptions the reader can raise.  [Exception kind] is the
    [Exception('Unexpected chunk: ...')] of [read_conll_document]; of
    its message the model keeps the [conll_type] of the offending
    chunk. *)
Inductive exn : Type :=
| IndexError
| ValueError
| AttributeError
| StopIteration
| RuntimeError
| Exception (kind : string).

Inductive result (A : Type) : Type :=
| Ok (a : A)
| Raise (e : exn).
Arguments Ok {A} a.
Arguments Raise {A} e.

Definition bind {A B : Type} (r : result A) (k : A -> result B) : result B :=
  match r with
  | Ok a => k a
  | Raise e => Raise e
  end.

(** Whitespace of [str.strip()], [str.split()] and [int()] on ASCII:
    TAB, LF, VT, FF, CR, FS, GS, RS, US and space. *)
Definition is_space (c : ascii) : bool :=
  let n := nat_of_ascii c in
  (((9 <=? n) && (n <=? 13)) || ((28 <=? n) && (n <=? 32)))%nat.

Fixpoint lstrip (s : string) : string :=
  match s with
  | EmptyString => EmptyString
  | String c s' => if is_space c then lstrip s' else s
  end.

Fixpoint rev_onto (s acc : string) : string :=
  match s with
  | EmptyString => acc
  | String c s' => rev_onto s' (String c acc)
  end.

Definition reverse (s : string) : string := rev_onto s EmptyString.

Definition rstrip (s : string) : string := reverse (lstrip (reverse s)).

(** [s.strip()] *)
Definition strip (s : string) : string := rstrip (lstrip s).

(** [s.startswith(p)] *)
Definition startswith (s p : string) : bool := String.prefix p s.

(** [s.endswith(p)] *)
Definition endswith (s p : string) : bool :=
  String.prefix (reverse p) (reverse s).

(** [s[n:]] for [0 <= n] *)
Fixpoint drop (n : nat) (s : string) : string :=
  match n, s with
  | O, _ => s
  | S _, EmptyString => EmptyString
  | S n', String _ s' => drop n' s'
  end.

(** [s[:-1]] *)
Fixpoint drop_last (s : string) : string :=
  match s with
  | EmptyString => EmptyString
  | String c EmptyString => EmptyString
  | String c s' => String c (drop_last s')
  end.

(** [s[1:-1]] *)
Definition strip_ends (s : string) : string := drop_last (drop 1 s).

Definition flush (cur : string) : list string :=
  match cur with
  | EmptyString => []
  | _ => [reverse cur]
  end.

(** [s.split()]: the maximal runs of non-whitespace characters.  [cur]
    holds the run being read, last character first. *)
Fixpoint split_from (cur : string) (s : string) : list string :=
  match s with
  | EmptyString => flush cur
  | String c s' =>
      if is_space c then flush cur ++ split_from EmptyString s'
      else split_from (String c cur) s'
  end.

Definition split (s : string) : list string := split_from EmptyString s.

(** [s.split(sep)] for a one-character separator: always at least one
    piece, empty pieces are kept. *)
Fixpoint split_on (sep : ascii) (s : string) : list string :=
  match s with
  | EmptyString => [EmptyString]
  | String c s' =>
      if Ascii.eqb c sep then EmptyString :: split_on sep s'
      else match split_on sep s' with
           | [] => [String c EmptyString]
           | w :: ws => String c w :: ws
           end
  end.

Definition digit_of (c : ascii) : option Z :=
  let n := nat_of_ascii c in
  if ((48 <=? n) && (n <=? 57))%nat then Some (Z.of_nat (n - 48)) else None.

(** The digits of a base-10 literal; an underscore is allowed between
    two digits.  [prev] tells whether the previous character was a
    digit. *)
Fixpoint int_digits (acc : Z) (prev : bool) (s : string) : option Z :=
  match s with
  | EmptyString => if prev then Some acc else None
  | String c s' =>
      if Ascii.eqb c "_"%char then
        if prev then int_digits acc false s' else None
      else
        match digit_of c with
        | Some d => int_digits (10 * acc + d)%Z true s'
        | None => None
        end
  end.

(** [int(s)] in base 10: surrounding whitespace, an optional sign, decimal
    digits with single underscores between them (the literals of Python
    3.6 and later).  [ValueError] on anything else. *)
Definition int (s : string) : result Z :=
  let t := strip s in
  let parsed :=
    match t with
    | String "+"%char r => int_digits 0%Z false r
    | String "-"%char r => option_map Z.opp (int_digits 0%Z false r)
    | _ => int_digits 0%Z false t
    end in
  match parsed with
  | Some z => Ok z
  | None => Raise ValueError
  end.

(** [l[i]] for [0 <= i]; [IndexError] out of range. *)
Definition index {A : Type} (l : list A) (i : nat) : result A :=
  match nth_error l i with
  | Some a => Ok a
  | None => Raise IndexError
  end.

(** [l[-1]] *)
Definition index_last {A : Type} (l : list A) : result A :=
  match rev l with
  | a :: _ => Ok a
  | [] => Raise IndexError
  end.

(** [next(x for x in l if p(x))]: the first element that satisfies [p];
    [StopIteration] when there is none. *)
Definition next_such {A : Type} (p : A -> bool) (l : list A) : result A :=
  match find p l with
  | Some a => Ok a
  | None => Raise StopIteration
  end.

(** [l.remove(x)]: delete the first element equal to [x]; [ValueError]
    when there is none. *)
Fixpoint remove_first {A : Type} (eqb : A -> A -> bool) (x : A) (l : list A)
  : result (list A) :=
  match l with
  | [] => Raise ValueError
  | y :: l' =>
      if eqb y x then Ok l'
      else bind (remove_first eqb x l') (fun r => Ok (y :: r))
  end.

(** [[f(x) for x in l]] where [f] can raise: left to right, the first
    exception ends the comprehension. *)
Fixpoint comprehension {A B : Type} (f : A -> result B) (l : list A)
  : result (list B) :=
  match l with
  | [] => Ok []
  | x :: l' =>
      bind (f x) (fun y =>
      bind (comprehension f l') (fun ys => Ok (y :: ys)))
  end.

(** The lines of a text, each with its line feed, as [readline] returns
    them one after the other. *)
Fixpoint lines_from (cur : string) (s : string) : list string :=
  match s with
  | EmptyString => flush cur
  | String c s' =>
      if Ascii.eqb c "010"%char then reverse (String c cur) :: lines_from EmptyString s'
      else lines_from (String c cur) s'
  end.

Definition readlines (text : string) : list string := lines_from EmptyString text.

End Py.

Import Py.

Notation "x <- e ;; k" := (Py.bind e (fun x => k))
  (at level 61, e at next level, right associativity).
Notation "' p <- e ;; k" := (Py.bind e (fun p => k))
  (at level 61, p pattern, e at next level, right associativity).

(* ===================================================================== *)
(** * lang.py                                                              *)
(* ===================================================================== *)

(** A reference [(entity_id, start_span, end_span)]. *)
Definition reference : Type := Z * Z * Z.

(** A mention [(sent_num, span_start, span_end)] of a cluster. *)
Definition mention : Type := nat * Z * Z.

Module Sentence.

Record t : Type := make { tokens : list string; references : list reference }.

Definition normalize_token (tok : string) : string :=
  if String.eqb tok "-LRB-" then "("
  else if String.eqb tok "-RRB-" then ")"
  else tok.

(** [Sentence.normalize]: the loop appends the revised token of every
    token in turn. *)
Fixpoint normalize (toks : list string) : list string :=
  match toks with
  | [] => []
  | tok :: rest => normalize_token tok :: normalize rest
  end.

(** [Sentence.__init__] *)
Definition init (toks : list string) (refs : list reference) : t :=
  {| tokens := normalize toks; references := refs |}.

End Sentence.

Module Document.

Record t : Type := init {
  doc_id : string;
  tokens : list (list string);
  mentions : list (list mention)
}.

End Document.

(* ===================================================================== *)
(** * conll.py                                                             *)
(* ===================================================================== *)

Inductive ConllChunk : Type :=
| BeginDocument (doc_id : string)
| EndDocument
| EndFile
| Segment (lines : list string).

Definition conll_type (c : ConllChunk) : string :=
  match c with
  | BeginDocument _ => "begin"
  | EndDocument => "end"
  | EndFile => "eof"
  | Segment _ => "segment"
  end.

(** An open file handle: the lines not read yet. *)
Definition handle : Type := list string.

(** [inhandle.readline()]: the next line, or the empty string at the end
    of the file. *)
Definition readline (h : handle) : string * handle :=
  match h with
  | [] => (EmptyString, [])
  | line :: rest => (line, rest)
  end.

Definition is_blank (line : string) : bool := String.eqb (strip line) "".

(** The loop [for line in inhandle] of [read_conll_chunk]: the stripped
    lines up to the next blank line, which is consumed, or up to the end
    of the file. *)
Fixpoint read_segment_lines (h : handle) : list string * handle :=
  match h with
  | [] => ([], [])
  | line :: rest =>
      if is_blank line then ([], rest)
      else let '(ls, h') := read_segment_lines rest in (strip line :: ls, h')
  end.

Definition read_conll_chunk (inhandle : handle) : ConllChunk * handle :=
  let '(firstline, h) := readline inhandle in
  if is_blank firstline then (EndFile, h)
  else if startswith firstline "#begin document" then
    (BeginDocument (strip (drop (String.length "#begin document") firstline)), h)
  else if startswith firstline "#end document" then (EndDocument, h)
  else let '(ls, h') := read_segment_lines h in (Segment (firstline :: ls), h').

Definition is_segment (c : ConllChunk) : bool := String.eqb (conll_type c) "segment".

(** What is left to read, counting a segment in hand as one more step. *)
Definition loop_measure (nextchunk : ConllChunk) (h : handle) : nat :=
  (List.length h + (if is_segment nextchunk then 1 else 0))%nat.

Definition inspect {A : Type} (a : A) : {b : A | a = b} := exist _ a eq_refl.

(** The loop [while nextchunk.conll_type() == 'segment'] of
    [read_conll_document], from the state (nextchunk, chunks, inhandle) to
    the state at its exit.  It terminates because every chunk read takes at
    least one line, and at the end of the file the chunk is an [EndFile]. *)
Equations? while_segment (nextchunk : ConllChunk) (chunks : list ConllChunk)
  (h : handle) : ConllChunk * list ConllChunk * handle
  by wf (loop_measure nextchunk h) lt :=
while_segment nextchunk chunks h with inspect (is_segment nextchunk) := {
  | exist _ true _ with inspect (read_conll_chunk h) := {
    | exist _ (c, h') E => while_segment c (chunks ++ [nextchunk]) h' };
  | exist _ false _ => (nextchunk, chunks, h) }.
Proof.
  assert (Hseg : forall r ls r', read_segment_lines r = (ls, r') ->
                                 (List.length r' <= List.length r)%nat).
  { induction r as [|l r IH]; simpl; intros ls r' R.
    - inversion R; subst; auto.
    - destruct (is_blank l).
      + inversion R; subst; simpl; lia.
      + destruct (read_segment_lines r) as [ls0 r0].
        inversion R; subst. specialize (IH _ _ eq_refl). simpl; lia. }
  unfold loop_measure. rewrite e.
  unfold read_conll_chunk in E. destruct h as [|l r]; simpl in E.
  - inversion E; subst. simpl. lia.
  - destruct (is_blank l); [inversion E; subst; simpl; lia|].
    destruct (startswith l "#begin document"); [inversion E; subst; simpl; lia|].
    destruct (startswith l "#end document"); [inversion E; subst; simpl; lia|].
    destruct (read_segment_lines r) as [ls0 r0] eqn:R. inversion E; subst.
    apply Hseg in R. destruct (is_segment _); simpl; lia.
Defined.

(** [read_conll_document].  The pair [(None, None)] is [None]; a pair
    [(doc_id, chunks)] is [Some (doc_id, chunks)].  The handle after the
    call comes with the value. *)
Definition read_conll_document (inhandle : handle)
  : result (option (string * list ConllChunk) * handle) :=
  let '(firstchunk, h) := read_conll_chunk inhandle in
  if String.eqb (conll_type firstchunk) "eof" then Ok (None, h)
  else if negb (String.eqb (conll_type firstchunk) "begin") then
    Raise (Exception (conll_type firstchunk))
  else
    let '(nextchunk, h) := read_conll_chunk h in
    let '(nextchunk, chunks, h) := while_segment nextchunk [] h in
    if negb (String.eqb (conll_type nextchunk) "end") then
      Raise (Exception (conll_type nextchunk))
    else
      match firstchunk with
      | BeginDocument doc_id => Ok (Some (doc_id, chunks), h)
      | _ => Raise AttributeError
      end.

(** ** The nested functions of [read_conll_file] *)

(** The [defaultdict(list)]: keys in insertion order. *)
Definition mentions_dict : Type := list (Z * list mention).

(** [mentions[entity].append(m)] *)
Fixpoint dict_append (entity : Z) (m : mention) (d : mentions_dict) : mentions_dict :=
  match d with
  | [] => [(entity, [m])]
  | (k, ms) :: d' =>
      if Z.eqb k entity then (k, ms ++ [m]) :: d'
      else (k, ms) :: dict_append entity m d'
  end.

(** [list(mentions.values())] *)
Definition dict_values (d : mentions_dict) : list (list mention) := map snd d.

(** The inner loop [for (entity, start, stop) in sent.references]. *)
Fixpoint for_references (i : nat) (refs : list reference) (d : mentions_dict)
  : mentions_dict :=
  match refs with
  | [] => d
  | (entity, start, stop) :: refs' =>
      for_references i refs' (dict_append entity (i, start, stop) d)
  end.

(** The outer loop [for i, sent in enumerate(sents)], from index [i]. *)
Fixpoint for_sentences (i : nat) (sents : list Sentence.t) (d : mentions_dict)
  : mentions_dict :=
  match sents with
  | [] => d
  | sent :: sents' =>
      for_sentences (S i) sents' (for_references i (Sentence.references sent) d)
  end.

Definition process_conll_document (doc_id : string) (sents : list Sentence.t)
  : Document.t :=
  let mentions := for_sentences 0 sents [] in
  let tokens := map Sentence.tokens sents in
  let corefs := dict_values mentions in
  Document.init doc_id tokens corefs.

(** An entry [(entity, start_position)] of the open list. *)
Definition open_entry : Type := Z * Z.

Definition open_entry_eqb (x y : open_entry) : bool :=
  Z.eqb (fst x) (fst y) && Z.eqb (snd x) (snd y).

(** The state of the span reconstruction: [open_list] and [spans]. *)
Definition span_state : Type := list open_entry * list reference.

(** The body of [for coref in corefs] at a word position. *)
Definition process_coref (word_position : Z) (st : span_state) (coref : string)
  : result span_state :=
  let '(open_list, spans) := st in
  if startswith coref "(" && endswith coref ")" then
    entity <- int (strip_ends coref) ;;
    Ok (open_list, spans ++ [(entity, word_position, word_position)])
  else if startswith coref "(" then
    entity <- int (drop 1 coref) ;;
    Ok ((entity, word_position) :: open_list, spans)
  else if endswith coref ")" then
    entity <- int (drop_last coref) ;;
    found <- next_such (fun x : open_entry => Z.eqb (fst x) entity) open_list ;;
    let start_position := snd found in
    open_list' <- remove_first open_entry_eqb (entity, start_position) open_list ;;
    Ok (open_list', spans ++ [(entity, start_position, word_position)])
  else Ok st.

Fixpoint for_corefs (word_position : Z) (corefs : list string) (st : span_state)
  : result span_state :=
  match corefs with
  | [] => Ok st
  | coref :: corefs' =>
      st' <- process_coref word_position st coref ;;
      for_corefs word_position corefs' st'
  end.

(** The state of [process_conll_sentence]: [tokens], [open_list], [spans]. *)
Definition sentence_state : Type := list string * span_state.

(** The body of [for line in sent.lines]. *)
Definition process_line (st : sentence_state) (line : string)
  : result sentence_state :=
  let '(tokens, spst) := st in
  let fields := split line in
  field2 <- index fields 2 ;;
  word_position <- int (strip field2) ;;
  last <- index_last fields ;;
  let corefs := split_on "|" (strip last) in
  spst' <- for_corefs word_position corefs spst ;;
  field3 <- index fields 3 ;;
  Ok (tokens ++ [strip field3], spst').

Fixpoint for_lines (lines : list string) (st : sentence_state)
  : result sentence_state :=
  match lines with
  | [] => Ok st
  | line :: lines' =>
      st' <- process_line st line ;;
      for_lines lines' st'
  end.

Definition process_conll_sentence (sent : ConllChunk) : result Sentence.t :=
  match sent with
  | Segment lines =>
      '(tokens, (open_list, spans)) <- for_lines lines ([], ([], [])) ;;
      Ok (Sentence.init tokens spans)
  | _ => Raise AttributeError
  end.

(** ** The generator [read_conll_file] *)

(** What one [next] on the generator does. *)
Inductive resumption : Type :=
| Yield (doc : Document.t) (h : handle)   (* suspended at [yield], file at [h] *)
| Finished                                (* the loop ended: [StopIteration] for the caller *)
| Failed (e : exn).                       (* an exception left the generator *)

(** An exception that leaves the generator body; a [StopIteration] raised
    inside the body reaches the caller as a [RuntimeError] (PEP 479). *)
Definition leaving (e : exn) : exn :=
  match e with
  | StopIteration => RuntimeError
  | _ => e
  end.

(** One turn of [while has_more], from the loop head with the file at
    [inhandle], up to the [yield] or to the end of the generator. *)
Definition resume (inhandle : handle) : resumption :=
  match read_conll_document inhandle with
  | Raise e => Failed (leaving e)
  | Ok (None, _) => Finished
  | Ok (Some (doc_id, chunks), h) =>
      match comprehension process_conll_sentence chunks with
      | Raise e => Failed (leaving e)
      | Ok sents => Yield (process_conll_document doc_id sents) h
      end
  end.

(** How a run of the generator stands after some calls of [next]. *)
Inductive status : Type :=
| Suspended (h : handle)   (* at a [yield], more may come *)
| Exhausted                (* ended normally *)
| Raised (e : exn).        (* ended by an exception *)

(** [read_conll_file] on the lines of the file, pulled at most [pulls]
    times: the documents yielded, in order, and how the generator stands
    then. *)
Fixpoint read_conll_file (pulls : nat) (inhandle : handle)
  : list Document.t * status :=
  match pulls with
  | O => ([], Suspended inhandle)
  | S pulls' =>
      match resume inhandle with
      | Yield doc h =>
          let '(docs, st) := read_conll_file pulls' h in (doc :: docs, st)
      | Finished => ([], Exhausted)
      | Failed e => ([], Raised e)
      end
  end.

(** The loop [for doc in read_conll_file(filename)] of [harvest] pulls
    until the generator ends; one more pull than the file has lines is
    enough for that. *)
Definition read_whole_file (text : string) : list Document.t * status :=
  let h := readlines text in read_conll_file (S (List.length h)) h.

(* ===================================================================== *)
(** * Vocabulary of the properties                                         *)
(* ===================================================================== *)

(** ** Coreference codes *)

(** [coref] is a code [(N)]: the first branch of [process_coref] with
    entity [N]. *)
Definition immediate_code (coref : string) (N : Z) : Prop :=
  startswith coref "(" = true /\ endswith coref ")" = true /\
  int (strip_ends coref) = Ok N.

(** [coref] is a code [(N]: the second branch. *)
Definition open_code (coref : string) (N : Z) : Prop :=
  startswith coref "(" = true /\ endswith coref ")" = false /\
  int (drop 1 coref) = Ok N.

(** [coref] is a code [N)]: the third branch. *)
Definition close_code (coref : string) (N : Z) : Prop :=
  startswith coref "(" = false /\ endswith coref ")" = true /\
  int (drop_last coref) = Ok N.

(** [coref] has no bracket shape: it neither starts with an opening
    bracket nor ends with a closing one. *)
Definition plain_code (coref : string) : bool :=
  negb (startswith coref "(") && negb (endswith coref ")").

(** The shape of the code of an event, by the tests of [process_coref]. *)
Definition immediate (ev : Z * string) : bool :=
  startswith (snd ev) "(" && endswith (snd ev) ")".

Definition opening (ev : Z * string) : bool :=
  startswith (snd ev) "(" && negb (endswith (snd ev) ")").

Definition closing (ev : Z * string) : bool :=
  negb (startswith (snd ev) "(") && endswith (snd ev) ")".

(** The word position of a line, as [process_line] reads it. *)
Definition word_position_of (line : string) : result Z :=
  field2 <- index (split line) 2 ;;
  int (strip field2).

(** The codes of a line, as [process_line] reads them. *)
Definition corefs_of (line : string) : result (list string) :=
  last <- index_last (split line) ;;
  Ok (split_on "|" (strip last)).

(** The token of a line, as [process_line] reads it. *)
Definition token_of (line : string) : result string :=
  field3 <- index (split line) 3 ;;
  Ok (strip field3).

(** A coding event: a code met at a word position. *)
Definition event : Type := Z * string.

(** The events of a line, in the order [for coref in corefs] meets them. *)
Definition line_events (line : string) : result (list event) :=
  word_position <- word_position_of line ;;
  corefs <- corefs_of line ;;
  Ok (map (pair word_position) corefs).

(** The events of consecutive lines. *)
Fixpoint lines_events (lines : list string) : result (list event) :=
  match lines with
  | [] => Ok []
  | line :: lines' =>
      evs <- line_events line ;;
      evs' <- lines_events lines' ;;
      Ok (evs ++ evs')
  end.

(** [process_coref] along a list of events. *)
Fixpoint for_events (evs : list event) (st : span_state) : result span_state :=
  match evs with
  | [] => Ok st
  | (word_position, coref) :: evs' =>
      st' <- process_coref word_position st coref ;;
      for_events evs' st'
  end.

(** The decoding of [lines] gets to the code [coref] of one of its lines,
    at word position [word_position], having met the events [seen] before
    it, with the span state [st]. *)
Definition reaches (lines : list string) (seen : list event)
  (word_position : Z) (st : span_state) (coref : string) : Prop :=
  exists before line after tokens st0 evs0 cpre cpost,
    lines = before ++ line :: after /\
    for_lines before ([], ([], [])) = Ok (tokens, st0) /\
    lines_events before = Ok evs0 /\
    word_position_of line = Ok word_position /\
    corefs_of line = Ok (cpre ++ coref :: cpost) /\
    for_corefs word_position cpre st0 = Ok st /\
    seen = evs0 ++ map (pair word_position) cpre.

(** No event of [evs] opens or closes a span of [entity]. *)
Definition untouched (entity : Z) (evs : list event) : Prop :=
  forall word_position coref, In (word_position, coref) evs ->
    ~ open_code coref entity /\ ~ close_code coref entity.

(** The first entry of an open list for an entity: the one a close code
    of that entity is matched with. *)
Definition first_open (entity : Z) (open_list : list open_entry) : option open_entry :=
  find (fun x : open_entry => Z.eqb (fst x) entity) open_list.

(** The entries of an open list for an entity, most recently opened
    first. *)
Definition entries_of (entity : Z) (open_list : list open_entry) : list open_entry :=
  filter (fun x : open_entry => Z.eqb (fst x) entity) open_list.

(** ** Sentences *)

(** The invariant of the data model on a sentence: every reference has
    [start <= end], both positions of a token. *)
Definition spans_in_range (s : Sentence.t) : Prop :=
  forall entity start stop, In (entity, start, stop) (Sentence.references s) ->
    (0 <= start /\ start <= stop /\ stop < Z.of_nat (List.length (Sentence.tokens s)))%Z.

(** Every start position of the open list and every span of a span state
    lies between 0 and [k], and no span ends before it starts. *)
Definition state_within (k : Z) (st : span_state) : Prop :=
  (forall x, In x (fst st) -> 0 <= snd x <= k)%Z /\
  (forall entity start stop, In (entity, start, stop) (snd st) ->
     0 <= start /\ start <= stop /\ stop <= k)%Z.

(** The word position of every line is the index of the line. *)
Definition positions_are_indices (lines : list string) : Prop :=
  forall i line, nth_error lines i = Some line ->
    word_position_of line = Ok (Z.of_nat i).

(** No code of the line has a bracket shape. *)
Definition plain_line (line : string) : bool :=
  match corefs_of line with
  | Ok corefs => forallb plain_code corefs
  | Raise _ => true
  end.

(** The line has a word position and a token: at least four fields, the
    third one an integer. *)
Definition fields_ok (line : string) : bool :=
  match word_position_of line, token_of line with
  | Ok _, Ok _ => true
  | _, _ => false
  end.

(** ** Clusters *)

(** The references of the sentences from index [i] on, each as its entity
    and its mention, in the order of the sentences and of their
    references. *)
Fixpoint indexed_references (i : nat) (sents : list Sentence.t) : list (Z * mention) :=
  match sents with
  | [] => []
  | sent :: sents' =>
      map (fun r : reference => let '(entity, start, stop) := r in (entity, (i, start, stop)))
          (Sentence.references sent)
      ++ indexed_references (S i) sents'
  end.

(** The mentions of one entity, in order. *)
Definition cluster_of (entity : Z) (l : list (Z * mention)) : list mention :=
  map snd (filter (fun p => Z.eqb (fst p) entity) l).

(** The distinct entities in the order of their first occurrence. *)
Fixpoint first_occurrences (l : list Z) : list Z :=
  match l with
  | [] => []
  | x :: l' => x :: filter (fun y => negb (Z.eqb y x)) (first_occurrences l')
  end.

(** Grouping by entity, as the specification words it: one cluster per
    entity, in the order the entities first occur, the entity itself not
    kept. *)
Definition clusters_by_entity (l : list (Z * mention)) : list (list mention) :=
  map (fun entity => cluster_of entity l) (first_occurrences (map fst l)).

(** The two loops of [process_conll_document] as one pass over the
    indexed references. *)
Fixpoint append_all (l : list (Z * mention)) (d : mentions_dict) : mentions_dict :=
  match l with
  | [] => d
  | (entity, m) :: l' => append_all l' (dict_append entity m d)
  end.

(** The entity is not a key of the dictionary. *)
Definition absent (d : mentions_dict) (entity : Z) : bool :=
  negb (existsb (Z.eqb entity) (map fst d)).

(** The list of a dictionary entry with the mentions that [l] adds to it. *)
Definition extended (l : list (Z * mention)) (kv : Z * list mention) : list mention :=
  snd kv ++ cluster_of (fst kv) l.

(** ** Chunk sequences *)

(** The next [n] chunks of a file and the handle after them. *)
Fixpoint read_chunks (n : nat) (h : handle) : list ConllChunk * handle :=
  match n with
  | O => ([], h)
  | S n' =>
      let '(c, h1) := read_conll_chunk h in
      let '(cs, h2) := read_chunks n' h1 in
      (c :: cs, h2)
  end.

(** The grammar of a document: one [BeginDocument], one or more
    [Segment]s, one [EndDocument]. *)
Definition is_document (doc_id : string) (segments : list ConllChunk)
  (cs : list ConllChunk) : Prop :=
  cs = BeginDocument doc_id :: segments ++ [EndDocument] /\
  segments <> [] /\
  Forall (fun c => is_segment c = true) segments.

(** The next chunks of the file are a document. *)
Definition conforms (h : handle) : Prop :=
  exists n doc_id segments, is_document doc_id segments (fst (read_chunks n h)).

(** The next two chunks are a [BeginDocument] and an [EndDocument]. *)
Definition no_segment_document (h : handle) : Prop :=
  exists doc_id, fst (read_chunks 2 h) = [BeginDocument doc_id; EndDocument].

(** Every character of the string is whitespace. *)
Fixpoint all_space (s : string) : bool :=
  match s with
  | EmptyString => true
  | String c s' => is_space c && all_space s'
  end.

(** ** Well-formed files *)

Definition is_begin_line (line : string) : bool := startswith line "#begin document".
Definition is_end_line (line : string) : bool := startswith line "#end document".

(** A token line: not blank, not a marker. *)
Definition is_token_line (line : string) : bool :=
  negb (is_blank line) && negb (is_begin_line line) && negb (is_end_line line).

(** The lines of consecutive sentences, each sentence closed by a blank
    line, and the segments they are read as. *)
Inductive sentences_lines : list string -> list ConllChunk -> Prop :=
| sentences_nil : sentences_lines [] []
| sentences_cons first rest blank more chunks :
    is_token_line first = true ->
    Forall (fun l => is_token_line l = true) rest ->
    is_blank blank = true ->
    sentences_lines more chunks ->
    sentences_lines (first :: rest ++ blank :: more)
                    (Segment (first :: map strip rest) :: chunks).

(** A well-formed file: documents one after the other, each a begin line,
    sentences that decode, and an end line.  The second index lists the
    documents of the file in file order. *)
Inductive well_formed : handle -> list Document.t -> Prop :=
| well_formed_end : well_formed [] []
| well_formed_document begin_line body chunks sents end_line rest docs :
    is_begin_line begin_line = true ->
    sentences_lines body chunks ->
    comprehension process_conll_sentence chunks = Ok sents ->
    is_end_line end_line = true ->
    well_formed rest docs ->
    well_formed (begin_line :: body ++ end_line :: rest)
      (process_conll_document
         (strip (drop (String.length "#begin document") begin_line)) sents
       :: docs).

(** ** Example input *)

Definition LF : string := String "010"%char EmptyString.

(** The example of the format: one document, one sentence of two tokens
    and one span. *)
Definition example_text : string :=
  "#begin document (test)" ++ LF ++
  "t 0 0 -LRB- - - - - - - (1" ++ LF ++
  "t 0 1 -RRB- - - - - - - 1)" ++ LF ++
  LF ++
  "#end document" ++ LF.

(** A document whose only sentence opens entity 7 and never closes it. *)
Definition unclosed_text : string :=
  "#begin document (u)" ++ LF ++
  "t 0 0 the - - - - - - (7" ++ LF ++
  "t 0 1 end - - - - - - -" ++ LF ++
  LF ++
  "#end document" ++ LF.

(** A begin line directly after a begin line. *)
Definition double_begin_text : string :=
  "#begin document (a); part 000" ++ LF ++
  "#begin document (b); part 000" ++ LF.

(** A file of two documents; the second has two sentences. *)
Definition two_documents_text : string :=
  "#begin document (a); part 000" ++ LF ++
  "a 0 0 -LRB- - (1" ++ LF ++
  "a 0 1 -RRB- - 1)" ++ LF ++
  LF ++
  "#end document" ++ LF ++
  "#begin document (b); part 000" ++ LF ++
  "b 0 0 He - (2)" ++ LF ++
  "b 0 1 ran - -" ++ LF ++
  LF ++
  "b 0 0 He - (2)|(3" ++ LF ++
  "b 0 1 . - 3)" ++ LF ++
  LF ++
  "#end document" ++ LF.

(* ===================================================================== *)
(** * lang.py: [Sentence.__str__]                                          *)
(* ===================================================================== *)

(** [sep.join(l)] *)
Fixpoint join (sep : string) (l : list string) : string :=
  match l with
  | [] => EmptyString
  | x :: l' =>
      match l' with
      | [] => x
      | _ :: _ => (x ++ sep ++ join sep l')%string
      end
  end.

(** [Sentence.__str__]: the tokens with a space between them. *)
Definition Sentence_str (s : Sentence.t) : string :=
  join " " (Sentence.tokens s).

(* ===================================================================== *)
(** * Vocabulary of the further properties                                 *)
(* ===================================================================== *)

(** No character of the string is whitespace. *)
Fixpoint no_space (s : string) : bool :=
  match s with
  | EmptyString => true
  | String c s' => negb (is_space c) && no_space s'
  end.

(** A word: not empty, no whitespace. *)
Definition is_word (s : string) : bool :=
  negb (String.eqb s "") && no_space s.

(** One of the two bracket escapes that [Sentence.normalize] rewrites. *)
Definition is_escape (tok : string) : bool :=
  String.eqb tok "-LRB-" || String.eqb tok "-RRB-".

(** The line of index [i] has the word position [p]. *)
Definition position_at (lines : list string) (i : nat) (p : Z) : Prop :=
  exists line, nth_error lines i = Some line /\ word_position_of line = Ok p.

(** After [k] lines of [lines]: every start position of the open list
    is the word position of one of these lines, and every span starts at
    the word position of one of them and ends at the word position of the
    same or a later one. *)
Definition positions_known (lines : list string) (k : nat) (st : span_state) : Prop :=
  (forall x, In x (fst st) ->
     exists i, (i < k)%nat /\ position_at lines i (snd x)) /\
  (forall entity start stop, In (entity, start, stop) (snd st) ->
     exists i j, (i <= j)%nat /\ (j < k)%nat /\
                 position_at lines i start /\ position_at lines j stop).

(** The sentence index of a mention. *)
Definition sentence_of (m : mention) : nat := fst (fst m).

(** The sentence indexes of a list of mentions never go down. *)
Fixpoint ascending (l : list nat) : Prop :=
  match l with
  | [] => True
  | x :: l' => (forall y, In y l' -> (x <= y)%nat) /\ ascending l'
  end.

(** A chunk with the lines of a sentence: a segment of at least one
    line, the first one a token line. *)
Definition is_sentence_chunk (c : ConllChunk) : Prop :=
  exists first rest, c = Segment (first :: rest) /\ is_token_line first = true.

(** What holds of every document the generator yields: the id carries no
    surrounding whitespace; every sentence has a token, and its tokens
    are words, none of them a bracket escape; no cluster is empty, and
    every mention points to a sentence of the document. *)
Definition document_invariant (doc : Document.t) : Prop :=
  strip (Document.doc_id doc) = Document.doc_id doc /\
  Forall (fun toks => toks <> [] /\
                      Forall (fun w => is_word w = true) toks /\
                      Forall (fun w => is_escape w = false) toks)
         (Document.tokens doc) /\
  Forall (fun c => c <> [] /\
                   Forall (fun m => (sentence_of m
                                     < List.length (Document.tokens doc))%nat) c)
         (Document.mentions doc).



(** A file that ends inside its second document. *)
Definition truncated_text : string :=
  "#begin document (a); part 000" ++ LF ++
  "a 0 0 -LRB- - (1" ++ LF ++
  "a 0 1 -RRB- - 1)" ++ LF ++
  LF ++
  "#end document" ++ LF ++
  "#begin document (b); part 000" ++ LF ++
  "b 0 0 He - (2)" ++ LF.

(* ===================================================================== *)
(** * Basic facts                                                          *)
(* ===================================================================== *)

#[local] Arguments process_line : simpl never.
#[local] Arguments process_coref : simpl never.
#[local] Arguments read_conll_chunk : simpl never.

Lemma bind_Ok {A B : Type} (r : result A) (k : A -> result B) (b : B) :
  bind r k = Ok b -> exists a, r = Ok a /\ k a = Ok b.
Proof. destruct r as [a|e]; simpl; intros H; [eauto | discriminate]. Qed.


(** Invert a hypothesis [x <- r ;; k = Ok b]. *)
Ltac bind_inv H :=
  let a := fresh "a" in
  let Ha := fresh "Ha" in
  apply bind_Ok in H; destruct H as (a & Ha & H).

(** [process_line] in terms of the three readings of the line. *)
Lemma process_line_eq (tokens : list string) (st : span_state) (line : string) :
  process_line (tokens, st) line =
    (word_position <- word_position_of line ;;
     corefs <- corefs_of line ;;
     st' <- for_corefs word_position corefs st ;;
     tok <- token_of line ;;
     Ok (tokens ++ [tok], st')).
Proof.
  unfold process_line, word_position_of, corefs_of, token_of.
  destruct (index (split line) 2) as [f2|]; simpl; [|reflexivity].
  destruct (int (strip f2)) as [pos|]; simpl; [|reflexivity].
  destruct (index_last (split line)) as [last|]; simpl; [|reflexivity].
  destruct (for_corefs pos _ st) as [st'|]; simpl; [|reflexivity].
  destruct (index (split line) 3) as [f3|]; reflexivity.
Qed.

Lemma process_line_Ok tokens st line tokens' st' :
  process_line (tokens, st) line = Ok (tokens', st') ->
  exists word_position corefs tok,
    word_position_of line = Ok word_position /\
    corefs_of line = Ok corefs /\
    for_corefs word_position corefs st = Ok st' /\
    token_of line = Ok tok /\
    tokens' = tokens ++ [tok].
Proof.
  rewrite process_line_eq. intros H.
  bind_inv H. bind_inv H. bind_inv H. bind_inv H.
  inversion H; subst. eauto 10.
Qed.

(** The loop over the codes of a line is the loop over its events. *)
Lemma for_corefs_events word_position corefs st :
  for_corefs word_position corefs st =
  for_events (map (pair word_position) corefs) st.
Proof.
  revert st. induction corefs as [|c cs IH]; intros st; simpl; [reflexivity|].
  destruct (process_coref word_position st c); simpl; auto.
Qed.

Lemma for_events_app evs1 evs2 st :
  for_events (evs1 ++ evs2) st = (st' <- for_events evs1 st ;; for_events evs2 st').
Proof.
  revert st. induction evs1 as [|[p c] evs1 IH]; intros st; simpl; [reflexivity|].
  destruct (process_coref p st c); simpl; auto.
Qed.

Lemma for_lines_app lines1 lines2 st :
  for_lines (lines1 ++ lines2) st = (st' <- for_lines lines1 st ;; for_lines lines2 st').
Proof.
  revert st. induction lines1 as [|l ls IH]; intros st; simpl; [reflexivity|].
  destruct (process_line st l); simpl; auto.
Qed.

(** A code without bracket shape leaves the span state as it is. *)
Lemma process_coref_plain word_position st coref :
  plain_code coref = true -> process_coref word_position st coref = Ok st.
Proof.
  unfold plain_code, process_coref. destruct st as [open_list spans].
  destruct (startswith coref "("), (endswith coref ")"); simpl; intros H;
    try discriminate; reflexivity.
Qed.

Lemma for_corefs_plain word_position corefs st :
  forallb plain_code corefs = true -> for_corefs word_position corefs st = Ok st.
Proof.
  induction corefs as [|c cs IH]; simpl; intros H; [reflexivity|].
  apply andb_true_iff in H as [Hc Hcs].
  rewrite process_coref_plain by assumption. simpl. auto.
Qed.

Lemma normalize_length toks : List.length (Sentence.normalize toks) = List.length toks.
Proof. induction toks; simpl; congruence. Qed.

Lemma normalize_token_idempotent tok :
  Sentence.normalize_token (Sentence.normalize_token tok) = Sentence.normalize_token tok.
Proof.
  unfold Sentence.normalize_token.
  destruct (String.eqb tok "-LRB-") eqn:E1; [reflexivity|].
  destruct (String.eqb tok "-RRB-") eqn:E2; [reflexivity|].
  rewrite E1, E2. reflexivity.
Qed.

(* ===================================================================== *)
(** * Token normalization                                                  *)
(* ===================================================================== *)

(** C9. Normalizing a token list twice gives the same list as normalizing
    it once: [normalize (normalize toks) = normalize toks] for every token
    list. *)
Theorem normalize_idempotent (toks : list string) :
  Sentence.normalize (Sentence.normalize toks) = Sentence.normalize toks.
Proof.
  induction toks as [|tok rest IH]; simpl; [reflexivity|].
  rewrite normalize_token_idempotent, IH. reflexivity.
Qed.

Example normalize_brackets :
  Sentence.normalize ["-LRB-"; "a"; "-RRB-"; "("] = ["("; "a"; ")"; "("].
Proof. reflexivity. Qed.

(* ===================================================================== *)
(** * The segment decoder                                                  *)
(* ===================================================================== *)

Lemma for_corefs_app word_position cs1 cs2 st :
  for_corefs word_position (cs1 ++ cs2) st =
  (st' <- for_corefs word_position cs1 st ;; for_corefs word_position cs2 st').
Proof.
  rewrite !for_corefs_events, map_app, for_events_app.
  destruct (for_events _ st); simpl; [apply eq_sym, for_corefs_events | reflexivity].
Qed.

(** An exception of [process_coref] at a code the decoding gets to is the
    outcome of the whole decoding. *)
Lemma reaches_Raise lines seen word_position st coref e :
  reaches lines seen word_position st coref ->
  process_coref word_position st coref = Raise e ->
  process_conll_sentence (Segment lines) = Raise e.
Proof.
  intros (before & line & after & tokens & st0 & evs0 & cpre & cpost &
          -> & Hbefore & _ & Hpos & Hcorefs & Hpre & _) Hraise.
  unfold process_conll_sentence.
  rewrite for_lines_app, Hbefore. simpl.
  rewrite process_line_eq, Hpos, Hcorefs. simpl.
  rewrite for_corefs_app, Hpre. simpl.
  rewrite Hraise. reflexivity.
Qed.

Lemma find_none_entity (entity : Z) (open_list : list open_entry) :
  (forall x, In x open_list -> fst x <> entity) ->
  first_open entity open_list = None.
Proof.
  unfold first_open.
  induction open_list as [|x l IH]; simpl; intros H; [reflexivity|].
  destruct (Z.eqb_spec (fst x) entity) as [E|E].
  - exfalso. apply (H x); auto.
  - apply IH. intros y Hy. apply H. auto.
Qed.

(** The result of [process_conll_sentence] from the final state of its
    loop. *)
Lemma process_conll_sentence_final lines tokens open_list spans :
  for_lines lines ([], ([], [])) = Ok (tokens, (open_list, spans)) ->
  process_conll_sentence (Segment lines) = Ok (Sentence.init tokens spans).
Proof.
  intros H. unfold process_conll_sentence. rewrite H. reflexivity.
Qed.

(** C6. When the decoding of a segment gets to a close code [N)] and the
    open list has no entry for [N], [process_conll_sentence] raises (the
    [StopIteration] of [next]) and returns no Sentence. *)
Theorem unmatched_close_fails
  (lines : list string) (seen : list event) (word_position : Z)
  (open_list : list open_entry) (spans : list reference)
  (coref : string) (N : Z) :
  reaches lines seen word_position (open_list, spans) coref ->
  close_code coref N ->
  (forall x, In x open_list -> fst x <> N) ->
  process_conll_sentence (Segment lines) = Raise StopIteration /\
  forall s, process_conll_sentence (Segment lines) <> Ok s.
Proof.
  intros Hreach (Hstart & Hend & Hint) Hnone.
  assert (R : process_conll_sentence (Segment lines) = Raise StopIteration).
  { apply (reaches_Raise _ _ _ _ _ _ Hreach).
    unfold process_coref. rewrite Hstart, Hend. simpl. rewrite Hint. simpl.
    unfold next_such. fold (first_open N open_list).
    rewrite (find_none_entity _ _ Hnone). reflexivity. }
  split; [exact R|]. intros s. rewrite R. discriminate.
Qed.

Lemma unmatched_close_fails_witness :
  process_conll_sentence
    (Segment ["t 0 0 a - (3"; "t 0 1 b - 3)|5)"]) = Raise StopIteration /\
  forall s, process_conll_sentence
    (Segment ["t 0 0 a - (3"; "t 0 1 b - 3)|5)"]) <> Ok s.
Proof.
  apply (unmatched_close_fails _ [(0%Z, "(3"); (1%Z, "3)")] 1%Z []
           [(3%Z, 0%Z, 1%Z)] "5)" 5%Z).
  - exists ["t 0 0 a - (3"], "t 0 1 b - 3)|5)", [], ["a"],
      ([(3%Z, 0%Z)], []), [(0%Z, "(3")], ["3)"], [].
    repeat split; reflexivity.
  - repeat split; reflexivity.
  - intros x [].
Defined.

(** C8 (as the code has it). When every line of a segment has a word
    position and a token and no code of bracket shape, the decoder returns
    a Sentence without references, with the normalized token of each line
    in order; the open list stays empty, and a code without bracket shape
    changes no span state. *)
Theorem plain_segment_decodes (lines : list string) :
  (forall line, In line lines -> plain_line line = true /\ fields_ok line = true) ->
  exists toks,
    Forall2 (fun line tok => token_of line = Ok tok) lines toks /\
    for_lines lines ([], ([], [])) = Ok (toks, ([], [])) /\
    process_conll_sentence (Segment lines)
      = Ok {| Sentence.tokens := Sentence.normalize toks; Sentence.references := [] |} /\
    List.length (Sentence.normalize toks) = List.length lines /\
    (lines <> [] -> Sentence.normalize toks <> []) /\
    (forall word_position st coref, plain_code coref = true ->
       process_coref word_position st coref = Ok st).
Proof.
  intros H.
  assert (G : forall acc st, exists toks,
             Forall2 (fun line tok => token_of line = Ok tok) lines toks /\
             for_lines lines (acc, st) = Ok (acc ++ toks, st)).
  { induction lines as [|line rest IH]; intros acc st.
    - exists []. split; [constructor | simpl; now rewrite app_nil_r].
    - destruct (H line (or_introl eq_refl)) as [Hplain Hfields].
      unfold plain_line in Hplain. unfold fields_ok in Hfields.
      destruct (word_position_of line) as [pos|] eqn:Hpos; [|discriminate].
      destruct (token_of line) as [tok|] eqn:Htok; [|discriminate].
      destruct (IH (fun l Hl => H l (or_intror Hl)) (acc ++ [tok]) st)
        as (toks & Htoks & Hrest).
      exists (tok :: toks). split; [constructor; assumption|].
      simpl. rewrite process_line_eq, Hpos. simpl.
      destruct (corefs_of line) as [corefs|] eqn:Hcorefs.
      + simpl. rewrite (for_corefs_plain _ _ _ Hplain). simpl.
        rewrite Htok. simpl. rewrite Hrest, <- app_assoc. reflexivity.
      + exfalso. unfold corefs_of, index_last in Hcorefs.
        unfold token_of, index in Htok.
        destruct (split line) as [|f fs]; [discriminate|].
        destruct (rev (f :: fs)) eqn:R; [|discriminate].
        apply (f_equal (@List.length string)) in R.
        rewrite length_rev in R. discriminate. }
  destruct (G [] ([], [])) as (toks & Htoks & Hrun). simpl in Hrun.
  exists toks. split; [exact Htoks|]. split; [exact Hrun|].
  assert (L : List.length toks = List.length lines).
  { clear -Htoks. induction Htoks; simpl; congruence. }
  split; [|split; [|split]].
  - exact (process_conll_sentence_final _ _ _ _ Hrun).
  - rewrite normalize_length. exact L.
  - intros Hne E. apply (f_equal (@List.length string)) in E.
    rewrite normalize_length, L in E. destruct lines; [congruence | discriminate].
  - intros; now apply process_coref_plain.
Qed.

(** C8, counterexample. The only code of the line is a bare [-], but the
    third field is no integer: the decoder raises [ValueError]. *)
Lemma plain_segment_can_raise :
  let line := ("a b c d -" ++ LF)%string in
  corefs_of line = Ok ["-"] /\
  plain_line line = true /\
  process_conll_sentence (Segment [line]) = Raise ValueError /\
  forall s, process_conll_sentence (Segment [line]) <> Ok s.
Proof. repeat split; try reflexivity. intros s. vm_compute. discriminate. Qed.

Lemma plain_segment_decodes_witness :
  exists toks,
    Forall2 (fun line tok => token_of line = Ok tok)
      ["t 0 0 -LRB- - -"; "t 0 1 x - -|-"] toks /\
    for_lines ["t 0 0 -LRB- - -"; "t 0 1 x - -|-"] ([], ([], [])) = Ok (toks, ([], [])) /\
    process_conll_sentence (Segment ["t 0 0 -LRB- - -"; "t 0 1 x - -|-"])
      = Ok {| Sentence.tokens := Sentence.normalize toks; Sentence.references := [] |} /\
    List.length (Sentence.normalize toks) = 2%nat /\
    (["t 0 0 -LRB- - -"; "t 0 1 x - -|-"] <> [] -> Sentence.normalize toks <> []) /\
    (forall word_position st coref, plain_code coref = true ->
       process_coref word_position st coref = Ok st).
Proof.
  apply (plain_segment_decodes ["t 0 0 -LRB- - -"; "t 0 1 x - -|-"]).
  intros line [<- | [<- | []]]; split; reflexivity.
Defined.

(** ** Spans and token positions *)

Lemma remove_first_In {A : Type} (eqb : A -> A -> bool) (x : A) (l l' : list A) :
  remove_first eqb x l = Ok l' -> forall y, In y l' -> In y l.
Proof.
  revert l'. induction l as [|z l IH]; simpl; intros l' H y Hy; [discriminate|].
  destruct (eqb z x).
  - inversion H; subst. auto.
  - bind_inv H. inversion H; subst. destruct Hy as [->|Hy]; eauto.
Qed.

Lemma state_within_weaken k k' st :
  (k <= k')%Z -> state_within k st -> state_within k' st.
Proof.
  intros Hk [Ho Hs]. split.
  - intros x Hx. specialize (Ho x Hx). lia.
  - intros e a b Hin. specialize (Hs e a b Hin). lia.
Qed.

Lemma process_coref_within k st coref st' :
  (0 <= k)%Z -> state_within k st ->
  process_coref k st coref = Ok st' -> state_within k st'.
Proof.
  intros Hk [Ho Hs]. destruct st as [open_list spans]. simpl in Ho, Hs.
  unfold process_coref.
  destruct (startswith coref "(" && endswith coref ")").
  { intros H. bind_inv H. inversion H; subst. split; simpl; [exact Ho|].
    intros e s t Hin. apply in_app_or in Hin as [Hin|[Hin|[]]]; [eauto|].
    inversion Hin; subst. lia. }
  destruct (startswith coref "(").
  { intros H. bind_inv H. inversion H; subst. split; simpl; [|exact Hs].
    intros x [<-|Hx]; [simpl; lia | eauto]. }
  destruct (endswith coref ")").
  { intros H. bind_inv H. bind_inv H. bind_inv H. inversion H; subst.
    unfold next_such in Ha0.
    destruct (find _ open_list) as [found|] eqn:F; [|discriminate].
    inversion Ha0; subst. apply find_some in F as [Hfound _].
    split; simpl.
    - intros x Hx. apply Ho. eapply remove_first_In; eauto.
    - intros e s t Hin. apply in_app_or in Hin as [Hin|[Hin|[]]]; [eauto|].
      inversion Hin; subst. specialize (Ho _ Hfound). lia. }
  intros H. inversion H; subst. split; assumption.
Qed.

Lemma for_corefs_within k corefs st st' :
  (0 <= k)%Z -> state_within k st ->
  for_corefs k corefs st = Ok st' -> state_within k st'.
Proof.
  intros Hk. revert st. induction corefs as [|c cs IH]; simpl; intros st Hst H.
  - inversion H; subst. exact Hst.
  - bind_inv H. eapply IH; [|exact H]. eapply process_coref_within; eauto.
Qed.

Lemma for_lines_within lines : forall k tokens st tokens' st',
  (forall i line, nth_error lines i = Some line ->
     word_position_of line = Ok (Z.of_nat (k + i))) ->
  List.length tokens = k ->
  state_within (Z.of_nat k - 1) st ->
  for_lines lines (tokens, st) = Ok (tokens', st') ->
  List.length tokens' = (k + List.length lines)%nat /\
  state_within (Z.of_nat (k + List.length lines) - 1) st'.
Proof.
  induction lines as [|line rest IH]; intros k tokens st tokens' st' Hpos Hlen Hst H.
  - simpl in *. inversion H; subst. rewrite Nat.add_0_r. auto.
  - simpl in H. bind_inv H. destruct a as [tokens1 st1].
    apply process_line_Ok in Ha as (pos & corefs & tok & Hp & _ & Hc & _ & ->).
    rewrite (Hpos 0%nat line eq_refl), Nat.add_0_r in Hp. inversion Hp; subst pos.
    assert (W : state_within (Z.of_nat (S k) - 1) st1).
    { replace (Z.of_nat (S k) - 1)%Z with (Z.of_nat k) by lia.
      eapply for_corefs_within; [lia | | exact Hc].
      eapply state_within_weaken; [|exact Hst]. lia. }
    assert (P : forall i l, nth_error rest i = Some l ->
                  word_position_of l = Ok (Z.of_nat (S k + i))).
    { intros i l Hl. rewrite (Hpos (S i) l Hl). do 2 f_equal. lia. }
    assert (L : List.length (tokens ++ [tok]) = S k).
    { rewrite length_app. simpl. lia. }
    destruct (IH (S k) _ _ _ _ P L W H) as [L1 L2].
    simpl List.length. rewrite <- Nat.add_succ_comm. auto.
Qed.

(** C7 (as the code has it). When the word position of every line is the
    index of the line, every reference of the Sentence the decoder returns
    has [0 <= start <= end], and [end] is the position of a token. *)
Theorem spans_within_tokens (lines : list string) (s : Sentence.t) :
  positions_are_indices lines ->
  process_conll_sentence (Segment lines) = Ok s ->
  spans_in_range s.
Proof.
  intros Hpos H. unfold process_conll_sentence in H.
  bind_inv H. destruct a as [tokens [open_list spans]]. inversion H; subst s.
  destruct (for_lines_within lines 0%nat [] ([], []) tokens (open_list, spans))
    as [L [_ W]]; auto.
  - split; simpl; intros; contradiction.
  - intros e a b Hin. simpl in *. rewrite normalize_length, L.
    specialize (W e a b Hin). simpl in W. lia.
Qed.

(** C7, counterexample. The decoder takes the word position from the
    line: a segment whose only line says position 5 gives a span at 5 for
    one token, and a close at a smaller position than the open gives a
    span that ends before it starts. *)
Lemma spans_can_leave_tokens :
  (exists s, process_conll_sentence (Segment [("t 0 5 w - (1)" ++ LF)%string]) = Ok s /\
             Sentence.tokens s = ["w"] /\
             Sentence.references s = [(1, 5, 5)%Z] /\
             ~ spans_in_range s) /\
  (exists s, process_conll_sentence
               (Segment [("t 0 3 a - (1" ++ LF)%string; "t 0 1 b - 1)"]) = Ok s /\
             Sentence.references s = [(1, 3, 1)%Z] /\
             ~ spans_in_range s).
Proof.
  split; eexists; (split; [reflexivity|]); repeat split; intros H.
  - specialize (H _ _ _ (or_introl eq_refl)). simpl in H. lia.
  - specialize (H _ _ _ (or_introl eq_refl)). simpl in H. lia.
Qed.

Lemma spans_within_tokens_witness :
  spans_in_range
    {| Sentence.tokens := ["("; "x"; ")"];
       Sentence.references := [(2, 1, 1)%Z; (1, 0, 2)%Z] |}.
Proof.
  apply (spans_within_tokens
           ["t 0 0 -LRB- - (1"; "t 0 1 x - (2)"; "t 0 2 -RRB- - 1)"]).
  - intros [|[|[|i]]] line E; simpl in E; inversion E; subst; try reflexivity.
    destruct i; discriminate.
  - reflexivity.
Defined.

(** ** Matching a close code *)

Lemma open_entry_eqb_eq (x y : open_entry) : open_entry_eqb x y = true <-> x = y.
Proof.
  unfold open_entry_eqb. destruct x as [a b], y as [c d]. simpl.
  rewrite andb_true_iff, !Z.eqb_eq. split; [intros [-> ->]; reflexivity|].
  intros H; inversion H; auto.
Qed.

Lemma first_open_entries entity open_list :
  first_open entity open_list = hd_error (entries_of entity open_list).
Proof.
  unfold first_open, entries_of.
  induction open_list as [|x l IH]; simpl; [reflexivity|].
  destruct (Z.eqb (fst x) entity); simpl; auto.
Qed.

(** Removing the first entry of an entity removes the head of its
    entries, and removing an entry of another entity leaves them. *)
Lemma remove_first_entries entity x rest open_list :
  entries_of entity open_list = x :: rest ->
  exists open_list',
    remove_first open_entry_eqb x open_list = Ok open_list' /\
    entries_of entity open_list' = rest.
Proof.
  unfold entries_of. induction open_list as [|y l IH]; simpl; intros H; [discriminate|].
  destruct (Z.eqb (fst y) entity) eqn:E.
  - inversion H; subst. rewrite (proj2 (open_entry_eqb_eq x x) eq_refl). eauto.
  - destruct (open_entry_eqb y x) eqn:Eyx.
    + apply open_entry_eqb_eq in Eyx. subst y.
      assert (Hx : In x (filter (fun x0 : open_entry => Z.eqb (fst x0) entity) l))
        by (rewrite H; left; reflexivity).
      apply filter_In in Hx as [_ Hx]. congruence.
    + destruct (IH H) as (l' & -> & Hl'). simpl. eexists. split; [reflexivity|].
      simpl. rewrite E. exact Hl'.
Qed.

Lemma remove_first_other entity x open_list open_list' :
  fst x <> entity ->
  remove_first open_entry_eqb x open_list = Ok open_list' ->
  entries_of entity open_list' = entries_of entity open_list.
Proof.
  unfold entries_of. intros Hx. revert open_list'.
  induction open_list as [|y l IH]; simpl; intros l' H; [discriminate|].
  destruct (open_entry_eqb y x) eqn:Eyx.
  - inversion H; subst. apply open_entry_eqb_eq in Eyx. subst y.
    apply Z.eqb_neq in Hx. rewrite Hx. reflexivity.
  - bind_inv H. inversion H; subst. simpl. rewrite (IH _ Ha). reflexivity.
Qed.

(** An open code puts its entry in front of the open list. *)
Lemma process_coref_open word_position open_list spans coref entity :
  open_code coref entity ->
  process_coref word_position (open_list, spans) coref
  = Ok ((entity, word_position) :: open_list, spans).
Proof.
  intros (Hs & He & Hi). unfold process_coref. rewrite Hs, He, Hi. reflexivity.
Qed.

(** A close code is matched with the head of the entries of its entity. *)
Lemma process_coref_close word_position open_list spans coref entity x rest :
  close_code coref entity ->
  entries_of entity open_list = x :: rest ->
  exists open_list',
    process_coref word_position (open_list, spans) coref
    = Ok (open_list', spans ++ [(entity, snd x, word_position)]) /\
    entries_of entity open_list' = rest.
Proof.
  intros (Hs & He & Hi) Hx. unfold process_coref. rewrite Hs, He, Hi. simpl.
  unfold next_such. fold (first_open entity open_list).
  rewrite first_open_entries, Hx. simpl.
  assert (Fx : fst x = entity).
  { assert (Hin : In x (entries_of entity open_list)) by (rewrite Hx; left; reflexivity).
    apply filter_In in Hin as [_ Hin]. now apply Z.eqb_eq. }
  replace (entity, snd x) with x by (destruct x; simpl in *; congruence).
  destruct (remove_first_entries _ _ _ _ Hx) as (l' & -> & Hl').
  simpl. eauto.
Qed.

(** A code that neither opens nor closes a span of an entity leaves the
    entries of that entity. *)
Lemma process_coref_untouched entity word_position st coref st' :
  ~ open_code coref entity -> ~ close_code coref entity ->
  process_coref word_position st coref = Ok st' ->
  entries_of entity (fst st') = entries_of entity (fst st).
Proof.
  intros Hno Hnc. destruct st as [open_list spans]. unfold process_coref.
  destruct (startswith coref "(") eqn:Hs, (endswith coref ")") eqn:He; simpl; intros H.
  - bind_inv H. inversion H; subst. reflexivity.
  - bind_inv H. inversion H; subst. simpl.
    destruct (Z.eqb_spec a entity) as [->|Hne]; [|reflexivity].
    exfalso. apply Hno. repeat split; assumption.
  - bind_inv H. bind_inv H. bind_inv H. inversion H; subst. simpl.
    eapply remove_first_other; [|exact Ha1]. simpl. intros ->.
    apply Hnc. repeat split; assumption.
  - inversion H; subst. reflexivity.
Qed.

Lemma for_events_untouched entity evs : forall st st',
  untouched entity evs -> for_events evs st = Ok st' ->
  entries_of entity (fst st') = entries_of entity (fst st).
Proof.
  induction evs as [|[p c] evs IH]; simpl; intros st st' Hu H.
  - inversion H; subst. reflexivity.
  - bind_inv H. rewrite (IH a st'); [| |exact H].
    + destruct (Hu p c (or_introl eq_refl)) as [Hno Hnc].
      eapply process_coref_untouched; eauto.
    + intros q d Hin. apply (Hu q d). right. exact Hin.
Qed.

(** The spans already emitted stay, in front of the later ones. *)
Lemma process_coref_spans_grow word_position st coref st' :
  process_coref word_position st coref = Ok st' ->
  exists more, snd st' = snd st ++ more.
Proof.
  destruct st as [open_list spans]. unfold process_coref.
  destruct (startswith coref "(" && endswith coref ")").
  { intros H. bind_inv H. inversion H; subst. simpl. eauto. }
  destruct (startswith coref "(").
  { intros H. bind_inv H. inversion H; subst. exists []. simpl. now rewrite app_nil_r. }
  destruct (endswith coref ")").
  { intros H. bind_inv H. bind_inv H. bind_inv H. inversion H; subst. simpl. eauto. }
  intros H. inversion H; subst. exists []. simpl. now rewrite app_nil_r.
Qed.

Lemma for_events_spans_grow evs : forall st st',
  for_events evs st = Ok st' -> exists more, snd st' = snd st ++ more.
Proof.
  induction evs as [|[p c] evs IH]; simpl; intros st st' H.
  - inversion H; subst. exists []. now rewrite app_nil_r.
  - bind_inv H. apply process_coref_spans_grow in Ha as [m1 E1].
    apply IH in H as [m2 E2]. exists (m1 ++ m2). rewrite E2, E1, app_assoc. reflexivity.
Qed.

Lemma for_lines_spans_grow lines : forall tokens st tokens' st',
  for_lines lines (tokens, st) = Ok (tokens', st') ->
  exists more, snd st' = snd st ++ more.
Proof.
  induction lines as [|line rest IH]; simpl; intros tokens st tokens' st' H.
  - inversion H; subst. exists []. now rewrite app_nil_r.
  - bind_inv H. destruct a as [tokens1 st1].
    apply process_line_Ok in Ha as (pos & corefs & tok & _ & _ & Hc & _ & _).
    rewrite for_corefs_events in Hc. apply for_events_spans_grow in Hc as [m1 E1].
    apply IH in H as [m2 E2]. exists (m1 ++ m2). rewrite E2, E1, app_assoc. reflexivity.
Qed.

(** The span state after some lines is the span state after their events. *)
Lemma for_lines_events lines : forall tokens st tokens' st' evs,
  for_lines lines (tokens, st) = Ok (tokens', st') ->
  lines_events lines = Ok evs ->
  for_events evs st = Ok st'.
Proof.
  induction lines as [|line rest IH]; simpl; intros tokens st tokens' st' evs H E.
  - inversion H; inversion E; subst. reflexivity.
  - bind_inv H. destruct a as [tokens1 st1]. bind_inv E. bind_inv E. inversion E; subst.
    apply process_line_Ok in Ha as (pos & corefs & tok & Hp & Hcs & Hc & _ & _).
    unfold line_events in Ha0. rewrite Hp, Hcs in Ha0. simpl in Ha0.
    inversion Ha0; subst. rewrite for_events_app, <- for_corefs_events, Hc. simpl.
    eapply IH; eauto.
Qed.

Lemma reaches_for_events lines seen word_position st coref :
  reaches lines seen word_position st coref ->
  for_events seen ([], []) = Ok st.
Proof.
  intros (before & line & after & tokens & st0 & evs0 & cpre & cpost &
          _ & Hbefore & Hevs & _ & _ & Hpre & ->).
  rewrite for_events_app, (for_lines_events _ _ _ _ _ _ Hbefore Hevs). simpl.
  rewrite <- for_corefs_events. exact Hpre.
Qed.

(** What the decoder returns holds the span emitted at a code it got to. *)
Lemma reaches_emitted lines seen word_position st coref open_list' span s :
  reaches lines seen word_position st coref ->
  process_coref word_position st coref = Ok (open_list', snd st ++ [span]) ->
  process_conll_sentence (Segment lines) = Ok s ->
  In span (Sentence.references s).
Proof.
  intros (before & line & after & tokens & st0 & evs0 & cpre & cpost &
          -> & Hbefore & _ & Hpos & Hcorefs & Hpre & _) Hstep H.
  unfold process_conll_sentence in H. bind_inv H.
  destruct a as [tokens' [open_list spans]]. inversion H; subst s. simpl.
  rewrite for_lines_app, Hbefore in Ha. simpl in Ha. bind_inv Ha.
  destruct a as [tokens1 st1].
  apply process_line_Ok in Ha0 as (pos & corefs & tok & Hp & Hcs & Hc & _ & _).
  rewrite Hpos in Hp. inversion Hp; subst pos.
  rewrite Hcorefs in Hcs. inversion Hcs; subst corefs.
  rewrite for_corefs_app, Hpre in Hc. simpl in Hc. rewrite Hstep in Hc. simpl in Hc.
  rewrite for_corefs_events in Hc. apply for_events_spans_grow in Hc as [m1 E1].
  apply for_lines_spans_grow in Ha as [m2 E2]. simpl in E1, E2.
  rewrite E2, E1. apply in_or_app. left. apply in_or_app. left.
  apply in_or_app. right. left. reflexivity.
Qed.

(** Every immediate code and every close code adds one span; every open
    code adds one entry to the open list and every close code takes one
    away. *)
Lemma remove_first_length {A : Type} (eqb : A -> A -> bool) (x : A) (l l' : list A) :
  remove_first eqb x l = Ok l' -> List.length l = S (List.length l').
Proof.
  revert l'. induction l as [|y l IH]; simpl; intros l' H; [discriminate|].
  destruct (eqb y x).
  - inversion H; subst. reflexivity.
  - bind_inv H. inversion H; subst. simpl. now rewrite (IH _ Ha).
Qed.

Lemma for_events_counts evs : forall open_list spans open_list' spans',
  for_events evs (open_list, spans) = Ok (open_list', spans') ->
  List.length spans'
  = (List.length spans + List.length (filter immediate evs)
     + List.length (filter closing evs))%nat /\
  (List.length open_list' + List.length (filter closing evs)
   = List.length open_list + List.length (filter opening evs))%nat.
Proof.
  induction evs as [|[p c] evs IH]; intros o s o' s' H.
  - simpl in H. inversion H; subst. simpl. lia.
  - simpl in H. bind_inv H. destruct a as [o1 s1].
    apply IH in H as [Hs Ho]. unfold process_coref in Ha.
    cbn [filter].
    change (immediate (p, c)) with (startswith c "(" && endswith c ")").
    change (closing (p, c)) with (negb (startswith c "(") && endswith c ")").
    change (opening (p, c)) with (startswith c "(" && negb (endswith c ")")).
    destruct (startswith c "(") eqn:Hst, (endswith c ")") eqn:Hen; simpl in Ha |- *.
    + bind_inv Ha. inversion Ha; subst. rewrite length_app in Hs. simpl in *. lia.
    + bind_inv Ha. inversion Ha; subst. simpl in *. lia.
    + bind_inv Ha. bind_inv Ha. bind_inv Ha. inversion Ha; subst.
      apply remove_first_length in Ha2. rewrite length_app in Hs. simpl in *. lia.
    + inversion Ha; subst. lia.
Qed.

Lemma for_lines_has_events lines : forall st st',
  for_lines lines st = Ok st' -> exists evs, lines_events lines = Ok evs.
Proof.
  induction lines as [|line rest IH]; simpl; intros st st' H; [eauto|].
  bind_inv H. destruct st as [tokens spst], a as [tokens1 st1].
  apply process_line_Ok in Ha as (pos & corefs & tok & Hp & Hcs & _ & _ & _).
  destruct (IH _ _ H) as [evs ->]. unfold line_events. rewrite Hp, Hcs. simpl. eauto.
Qed.

(** C1 (as the code has it). A segment whose lines are all decoded is
    returned as a Sentence of the tokens and of the spans emitted so far,
    whatever is left in the open list: entries never closed raise nothing
    and give no reference.  The references are as many as the immediate
    and the close codes of the segment, and the entries left open as many
    as the open codes without a close. *)
Theorem unclosed_spans_are_dropped
  (lines : list string) (tokens : list string)
  (open_list : list open_entry) (spans : list reference) :
  for_lines lines ([], ([], [])) = Ok (tokens, (open_list, spans)) ->
  process_conll_sentence (Segment lines) = Ok (Sentence.init tokens spans) /\
  exists evs,
    lines_events lines = Ok evs /\
    List.length spans
    = (List.length (filter immediate evs) + List.length (filter closing evs))%nat /\
    (List.length open_list + List.length (filter closing evs)
     = List.length (filter opening evs))%nat.
Proof.
  intros H. split; [exact (process_conll_sentence_final _ _ _ _ H)|].
  destruct (for_lines_has_events _ _ _ H) as [evs Hevs]. exists evs.
  split; [exact Hevs|].
  pose proof (for_lines_events _ _ _ _ _ _ H Hevs) as Hrun.
  exact (for_events_counts evs [] [] open_list spans Hrun).
Qed.

(** C1, counterexample. The sentence leaves entity 7 open: the decoding
    ends with [(7, 0)] in the open list, and a Sentence without any
    reference is returned, no exception raised. *)
Lemma unclosed_span_raises_nothing :
  let lines := [("t 0 0 the - - - - - - (7" ++ LF)%string; "t 0 1 end - - - - - - -"] in
  for_lines lines ([], ([], [])) = Ok (["the"; "end"], ([(7%Z, 0%Z)], [])) /\
  process_conll_sentence (Segment lines)
    = Ok {| Sentence.tokens := ["the"; "end"]; Sentence.references := [] |} /\
  (forall e, process_conll_sentence (Segment lines) <> Raise e) /\
  read_whole_file unclosed_text
    = ([Document.init "(u)" [["the"; "end"]] []], Exhausted).
Proof.
  repeat split; try reflexivity. intros e. vm_compute. discriminate.
Qed.

Lemma unclosed_spans_are_dropped_witness :
  process_conll_sentence
    (Segment [("t 0 0 the - - - - - - (7" ++ LF)%string; "t 0 1 end - - - - - - -"])
  = Ok (Sentence.init ["the"; "end"] []).
Proof.
  apply (unclosed_spans_are_dropped _ _ [(7%Z, 0%Z)] []). reflexivity.
Defined.

(** C2. When the decoding of a segment has met an open code of an entity
    at [p1], then another one at [p2], with no other open or close code of
    that entity in between or after, and gets to a close code of the
    entity at [p]: the close emits the span [(entity, p2, p)] (which is not
    [(entity, p1, p)] when the positions differ), the entry
    [(entity, p1)] stays in the open list, now the first of its entity,
    and the Sentence returned, if any, holds the span. *)
Theorem close_matches_latest_open
  (lines : list string) (A B C : list event) (p1 p2 p : Z)
  (c1 c2 c3 : string) (entity : Z) (st : span_state) :
  reaches lines (A ++ (p1, c1) :: B ++ (p2, c2) :: C) p st c3 ->
  open_code c1 entity -> open_code c2 entity -> close_code c3 entity ->
  untouched entity B -> untouched entity C ->
  exists open_list',
    process_coref p st c3 = Ok (open_list', snd st ++ [(entity, p2, p)]) /\
    In (entity, p1) open_list' /\
    first_open entity open_list' = Some (entity, p1) /\
    (p1 <> p2 -> snd st ++ [(entity, p2, p)] <> snd st ++ [(entity, p1, p)]) /\
    (forall s, process_conll_sentence (Segment lines) = Ok s ->
       In (entity, p2, p) (Sentence.references s)).
Proof.
  intros Hreach H1 H2 H3 HB HC.
  pose proof (reaches_for_events _ _ _ _ _ Hreach) as Hrun.
  rewrite for_events_app in Hrun. bind_inv Hrun. destruct a as [openA spansA].
  simpl in Hrun. rewrite (process_coref_open _ _ _ _ _ H1) in Hrun. simpl in Hrun.
  rewrite for_events_app in Hrun. bind_inv Hrun. destruct a as [openB spansB].
  pose proof (for_events_untouched _ _ _ _ HB Ha0) as EB. simpl in EB.
  simpl in Hrun. rewrite (process_coref_open _ _ _ _ _ H2) in Hrun. simpl in Hrun.
  pose proof (for_events_untouched _ _ _ _ HC Hrun) as EC. simpl in EC.
  unfold entries_of in EB at 2. simpl in EB. rewrite Z.eqb_refl in EB.
  fold (entries_of entity openA) in EB.
  unfold entries_of in EC at 2. simpl in EC. rewrite Z.eqb_refl in EC.
  fold (entries_of entity openB) in EC. rewrite EB in EC.
  destruct st as [open_list spans]. simpl in EC.
  destruct (process_coref_close p _ spans _ _ _ _ H3 EC) as (open_list' & Hstep & Hrest).
  simpl in Hstep. exists open_list'. simpl.
  split; [exact Hstep|]. split; [|split; [|split]].
  - assert (Hin : In (entity, p1) (entries_of entity open_list'))
      by (rewrite Hrest; left; reflexivity).
    apply filter_In in Hin as [Hin _]. exact Hin.
  - rewrite first_open_entries, Hrest. reflexivity.
  - intros Hne E. apply app_inv_head in E. inversion E. congruence.
  - intros s Hs. eapply reaches_emitted; eauto.
Qed.

Lemma close_matches_latest_open_witness :
  exists open_list',
    process_coref 3 ([(5, 2); (8, 1); (5, 0)]%Z, []) "5)"
      = Ok (open_list', [] ++ [(5, 2, 3)%Z]) /\
    In (5, 0)%Z open_list' /\
    first_open 5 open_list' = Some (5, 0)%Z /\
    (0 <> 2 -> [] ++ [(5, 2, 3)] <> [] ++ [(5, 0, 3)])%Z /\
    (forall s, process_conll_sentence
                 (Segment ["t 0 0 a - (5"; "t 0 1 b - (8"; "t 0 2 c - (5";
                           "t 0 3 d - 5)"]) = Ok s ->
       In (5, 2, 3)%Z (Sentence.references s)).
Proof.
  apply (close_matches_latest_open
           ["t 0 0 a - (5"; "t 0 1 b - (8"; "t 0 2 c - (5"; "t 0 3 d - 5)"]
           [] [(1%Z, "(8")] [] 0%Z 2%Z 3%Z "(5" "(5" "5)" 5%Z
           ([(5, 2); (8, 1); (5, 0)]%Z, [])).
  - exists ["t 0 0 a - (5"; "t 0 1 b - (8"; "t 0 2 c - (5"], "t 0 3 d - 5)", [],
      ["a"; "b"; "c"], ([(5, 2); (8, 1); (5, 0)]%Z, []),
      [(0%Z, "(5"); (1%Z, "(8"); (2%Z, "(5")], [], [].
    repeat split; reflexivity.
  - repeat split; reflexivity.
  - repeat split; reflexivity.
  - repeat split; reflexivity.
  - intros q d [E|[]]. inversion E; subst. split; intros (_ & _ & H); discriminate.
  - intros q d [].
Defined.

Example nested_same_entity :
  process_conll_sentence
    (Segment ["t 0 0 a - (5"; "t 0 1 b - (8"; "t 0 2 c - (5"; "t 0 3 d - 5)"])
  = Ok {| Sentence.tokens := ["a"; "b"; "c"; "d"];
          Sentence.references := [(5, 2, 3)%Z] |}.
Proof. reflexivity. Qed.

(* ===================================================================== *)
(** * Clusters of a document                                               *)
(* ===================================================================== *)

Lemma append_all_app l1 l2 d : append_all (l1 ++ l2) d = append_all l2 (append_all l1 d).
Proof.
  revert d. induction l1 as [|[e m] l1 IH]; intros d; simpl; auto.
Qed.

Lemma for_references_append_all i refs d :
  for_references i refs d
  = append_all (map (fun r : reference =>
                       let '(entity, start, stop) := r in (entity, (i, start, stop))) refs) d.
Proof.
  revert d. induction refs as [|[[e a] b] refs IH]; intros d; simpl; auto.
Qed.

Lemma for_sentences_append_all sents : forall i d,
  for_sentences i sents d = append_all (indexed_references i sents) d.
Proof.
  induction sents as [|sent sents IH]; intros i d; simpl; [reflexivity|].
  rewrite append_all_app, <- for_references_append_all. apply IH.
Qed.

Lemma cluster_of_cons entity e m l :
  cluster_of entity ((e, m) :: l)
  = if Z.eqb e entity then m :: cluster_of entity l else cluster_of entity l.
Proof. unfold cluster_of. simpl. destruct (Z.eqb e entity); reflexivity. Qed.

Lemma cluster_of_other entity e m l :
  entity <> e -> cluster_of entity ((e, m) :: l) = cluster_of entity l.
Proof.
  intros H. rewrite cluster_of_cons.
  destruct (Z.eqb_spec e entity); [congruence | reflexivity].
Qed.

Lemma absent_true d entity : absent d entity = true <-> ~ In entity (map fst d).
Proof.
  unfold absent. rewrite negb_true_iff. split.
  - intros H Hin. assert (E : existsb (Z.eqb entity) (map fst d) = true).
    { apply existsb_exists. exists entity. split; [exact Hin | apply Z.eqb_refl]. }
    congruence.
  - intros H. destruct (existsb _ _) eqn:E; [|reflexivity].
    apply existsb_exists in E as (y & Hy & Ey). apply Z.eqb_eq in Ey. subst y. contradiction.
Qed.

Lemma dict_append_absent e m d :
  ~ In e (map fst d) -> dict_append e m d = d ++ [(e, [m])].
Proof.
  induction d as [|[k ms] d IH]; simpl; intros H; [reflexivity|].
  destruct (Z.eqb_spec k e) as [->|Hne]; [exfalso; auto|].
  rewrite IH; auto.
Qed.

Lemma extended_other l e m d :
  ~ In e (map fst d) -> map (extended ((e, m) :: l)) d = map (extended l) d.
Proof.
  intros H. apply map_ext_in. intros [k ms] Hin. unfold extended. simpl.
  rewrite cluster_of_other; [reflexivity|]. intros ->. apply H.
  apply (in_map fst) in Hin. exact Hin.
Qed.

Lemma dict_append_present l e m d :
  NoDup (map fst d) -> In e (map fst d) ->
  map fst (dict_append e m d) = map fst d /\
  map (extended l) (dict_append e m d) = map (extended ((e, m) :: l)) d.
Proof.
  induction d as [|[k ms] d IH]; simpl; intros Hnd Hin; [contradiction|].
  inversion Hnd as [|? ? Hk Hnd']; subst.
  destruct (Z.eqb_spec k e) as [->|Hne].
  - split; [reflexivity|]. simpl. rewrite (extended_other l e m d Hk).
    unfold extended at 1 3. simpl. rewrite cluster_of_cons, Z.eqb_refl, <- app_assoc.
    reflexivity.
  - destruct Hin as [Hin|Hin]; [contradiction|].
    destruct (IH Hnd' Hin) as [K V]. split; simpl; [now rewrite K|].
    rewrite V. f_equal. unfold extended. simpl.
    rewrite cluster_of_other; [reflexivity|]. congruence.
Qed.

Lemma filter_filter_and {A : Type} (f g : A -> bool) (l : list A) :
  filter f (filter g l) = filter (fun x => g x && f x) l.
Proof.
  induction l as [|x l IH]; simpl; [reflexivity|].
  destruct (g x); simpl; [destruct (f x); simpl; congruence | exact IH].
Qed.

(** The values of the dictionary after a pass: the lists it had, each
    with the mentions of its entity, then one cluster for every new
    entity, in the order the new entities first occur. *)
Lemma dict_values_append_all l : forall d,
  NoDup (map fst d) ->
  dict_values (append_all l d)
  = map (extended l) d
    ++ map (fun entity => cluster_of entity l)
           (filter (absent d) (first_occurrences (map fst l))).
Proof.
  induction l as [|[e m] l IH]; intros d Hnd.
  - simpl. rewrite app_nil_r. unfold dict_values, extended, cluster_of. simpl.
    apply map_ext. intros [k ms]. simpl. now rewrite app_nil_r.
  - simpl append_all. simpl map. simpl first_occurrences. simpl filter.
    destruct (absent d e) eqn:Habs.
    + apply absent_true in Habs.
      rewrite (dict_append_absent e m d Habs).
      rewrite IH.
      2:{ rewrite map_app. simpl. apply NoDup_app; [exact Hnd | repeat constructor; auto |].
          intros x Hx [<-|[]]. contradiction. }
      rewrite map_app, <- app_assoc. simpl.
      rewrite (extended_other l e m d Habs). f_equal.
      unfold extended at 1. simpl. rewrite cluster_of_cons, Z.eqb_refl. f_equal.
      rewrite filter_filter_and.
      rewrite (filter_ext (absent (d ++ [(e, [m])]))
                 (fun x => negb (Z.eqb x e) && absent d x)).
      2:{ intros x. unfold absent. rewrite map_app, existsb_app. simpl.
          rewrite orb_false_r, negb_orb. apply andb_comm. }
      apply map_ext_in. intros x Hx. apply filter_In in Hx as [_ Hx].
      apply andb_true_iff in Hx as [Hx _]. apply negb_true_iff, Z.eqb_neq in Hx.
      now rewrite cluster_of_other.
    + assert (Hin : In e (map fst d)).
      { destruct (in_dec Z.eq_dec e (map fst d)) as [Hin|Hout]; [exact Hin|].
        apply absent_true in Hout. congruence. }
      destruct (dict_append_present l e m d Hnd Hin) as [K V].
      rewrite IH by (rewrite K; exact Hnd). rewrite V. f_equal.
      rewrite filter_filter_and.
      rewrite (filter_ext (absent (dict_append e m d)) (absent d)).
      2:{ intros x. unfold absent. now rewrite K. }
      rewrite (filter_ext_in (fun x => negb (Z.eqb x e) && absent d x) (absent d)).
      2:{ intros x _. destruct (Z.eqb_spec x e) as [->|]; simpl; [now rewrite Habs | reflexivity]. }
      apply map_ext_in. intros x Hx. apply filter_In in Hx as [_ Hx].
      rewrite cluster_of_other; [reflexivity|]. intros ->. congruence.
Qed.

Lemma first_occurrences_In (l : list Z) (x : Z) : In x (first_occurrences l) <-> In x l.
Proof.
  induction l as [|y l IH]; simpl; [tauto|]. rewrite filter_In, IH.
  destruct (Z.eqb_spec x y) as [->|Hne]; simpl.
  - split; intros _; left; reflexivity.
  - split; [intros [?|[? _]]; auto | intros [?|?]; auto].
Qed.

Lemma first_occurrences_NoDup (l : list Z) : NoDup (first_occurrences l).
Proof.
  induction l as [|y l IH]; simpl; constructor.
  - rewrite filter_In. intros [_ H]. now rewrite Z.eqb_refl in H.
  - now apply NoDup_filter.
Qed.

Lemma indexed_references_In sents : forall k i sent entity start stop,
  nth_error sents i = Some sent ->
  In (entity, start, stop) (Sentence.references sent) ->
  In (entity, ((k + i)%nat, start, stop)) (indexed_references k sents).
Proof.
  induction sents as [|s0 sents IH]; intros k i sent e a b Hnth Hin.
  - destruct i; discriminate.
  - simpl. apply in_or_app. destruct i as [|i]; simpl in Hnth.
    + inversion Hnth; subst. left. rewrite Nat.add_0_r.
      apply (in_map (fun r : reference =>
                       let '(entity, start, stop) := r in (entity, (k, start, stop))))
        in Hin. exact Hin.
    + right. rewrite <- Nat.add_succ_comm. eapply IH; eauto.
Qed.

Lemma cluster_of_In entity m l : In m (cluster_of entity l) <-> In (entity, m) l.
Proof.
  unfold cluster_of. rewrite in_map_iff. split.
  - intros ([e' m'] & <- & Hin). apply filter_In in Hin as [Hin E]. simpl in *.
    apply Z.eqb_eq in E. now subst.
  - intros Hin. exists (entity, m). split; [reflexivity|].
    apply filter_In. split; [exact Hin | apply Z.eqb_refl].
Qed.

Lemma mentions_eq_clusters doc_id sents :
  Document.mentions (process_conll_document doc_id sents)
  = clusters_by_entity (indexed_references 0 sents).
Proof.
  unfold process_conll_document. simpl.
  rewrite for_sentences_append_all, dict_values_append_all by constructor.
  simpl. unfold clusters_by_entity. f_equal.
  induction (first_occurrences _) as [|x l IH]; simpl; congruence.
Qed.

(** C5. The mentions of an assembled document are the references of its
    sentences grouped by entity: one cluster per entity, in the order the
    entities first occur, holding [(i, start, end)] for every reference
    [(entity, start, end)] of the sentence of index [i], in order, and
    nothing else; the clusters carry no entity id. *)
Theorem mentions_grouped_by_entity (doc_id : string) (sents : list Sentence.t) :
  let doc := process_conll_document doc_id sents in
  let refs := indexed_references 0 sents in
  Document.mentions doc = clusters_by_entity refs /\
  Document.tokens doc = map Sentence.tokens sents /\
  Document.doc_id doc = doc_id /\
  NoDup (first_occurrences (map fst refs)) /\
  (forall i sent entity start stop,
     nth_error sents i = Some sent ->
     In (entity, start, stop) (Sentence.references sent) ->
     In (i, start, stop) (cluster_of entity refs) /\
     In (cluster_of entity refs) (Document.mentions doc)) /\
  (forall c, In c (Document.mentions doc) ->
     exists entity, c = cluster_of entity refs /\
                    forall m, In m c -> In (entity, m) refs).
Proof.
  intros doc refs. subst doc.
  split; [apply mentions_eq_clusters|]. split; [reflexivity|]. split; [reflexivity|].
  split; [apply first_occurrences_NoDup|].
  rewrite mentions_eq_clusters. fold refs. split.
  - intros i sent e a b Hnth Hin.
    pose proof (indexed_references_In sents 0%nat i sent e a b Hnth Hin) as Href.
    simpl in Href. fold refs in Href. split; [now apply cluster_of_In|].
    unfold clusters_by_entity. apply in_map_iff. exists e. split; [reflexivity|].
    apply first_occurrences_In. apply (in_map fst) in Href. exact Href.
  - intros c Hc. unfold clusters_by_entity in Hc.
    apply in_map_iff in Hc as (e & <- & _). exists e. split; [reflexivity|].
    intros m. apply cluster_of_In.
Qed.

Example mentions_of_two_sentences :
  Document.mentions
    (process_conll_document "d"
       [Sentence.init ["a"; "b"] [(7, 0, 0); (3, 0, 1)]%Z;
        Sentence.init ["c"] [(3, 0, 0); (7, 0, 0)]%Z])
  = [[(0%nat, 0, 0); (1%nat, 0, 0)]; [(0%nat, 0, 1); (1%nat, 0, 0)]]%Z.
Proof. reflexivity. Qed.

(* ===================================================================== *)
(** * The chunk reader                                                     *)
(* ===================================================================== *)

Lemma rev_onto_length s acc :
  String.length (rev_onto s acc) = (String.length s + String.length acc)%nat.
Proof.
  revert acc. induction s as [|c s IH]; intros acc; simpl; [reflexivity|].
  rewrite IH. simpl. lia.
Qed.

Lemma all_space_rev_onto s acc :
  all_space (rev_onto s acc) = all_space s && all_space acc.
Proof.
  revert acc. induction s as [|c s IH]; intros acc; simpl; [reflexivity|].
  rewrite IH. simpl.
  destruct (all_space s), (is_space c), (all_space acc); reflexivity.
Qed.

Lemma lstrip_empty s : lstrip s = EmptyString -> all_space s = true.
Proof.
  induction s as [|c s IH]; simpl; [reflexivity|].
  destruct (is_space c); simpl; [exact IH | discriminate].
Qed.

(** A line that starts with a character that is no whitespace is not
    blank. *)
Lemma is_blank_head c s : is_space c = false -> is_blank (String c s) = false.
Proof.
  intros Hc. unfold is_blank. apply String.eqb_neq. intros E.
  unfold strip in E. cbn [lstrip] in E. rewrite Hc in E. unfold rstrip, reverse in E.
  apply (f_equal String.length) in E. rewrite rev_onto_length in E.
  destruct (lstrip (rev_onto (String c s) EmptyString)) eqn:L; [|simpl in E; lia].
  apply lstrip_empty in L. rewrite all_space_rev_onto in L. cbn [all_space] in L.
  rewrite Hc in L. destruct (all_space s); discriminate.
Qed.

Lemma startswith_head l c p :
  startswith l (String c p) = true ->
  exists l', l = String c l' /\ startswith l' p = true.
Proof.
  unfold startswith. destruct l as [|d l]; simpl; [discriminate|].
  destruct (ascii_dec c d) as [->|]; [eauto | discriminate].
Qed.

Lemma begin_line_not_blank l : is_begin_line l = true -> is_blank l = false.
Proof.
  intros H. apply startswith_head in H as (l' & -> & _). now apply is_blank_head.
Qed.

Lemma end_line_not_blank l : is_end_line l = true -> is_blank l = false.
Proof.
  intros H. apply startswith_head in H as (l' & -> & _). now apply is_blank_head.
Qed.

Lemma end_line_not_begin l : is_end_line l = true -> is_begin_line l = false.
Proof.
  intros H. apply startswith_head in H as (l1 & -> & H).
  apply startswith_head in H as (l2 & -> & _). reflexivity.
Qed.

Lemma read_conll_chunk_nil : read_conll_chunk [] = (EndFile, []).
Proof. reflexivity. Qed.

Lemma read_conll_chunk_blank l r :
  is_blank l = true -> read_conll_chunk (l :: r) = (EndFile, r).
Proof. intros H. unfold read_conll_chunk. simpl. now rewrite H. Qed.

Lemma read_conll_chunk_begin l r :
  is_begin_line l = true ->
  read_conll_chunk (l :: r)
  = (BeginDocument (strip (drop (String.length "#begin document") l)), r).
Proof.
  intros H. unfold read_conll_chunk. simpl readline. cbv iota beta.
  rewrite (begin_line_not_blank _ H). unfold is_begin_line in H. now rewrite H.
Qed.

Lemma read_conll_chunk_end l r :
  is_end_line l = true -> read_conll_chunk (l :: r) = (EndDocument, r).
Proof.
  intros H. unfold read_conll_chunk. simpl readline. cbv iota beta.
  rewrite (end_line_not_blank _ H).
  pose proof (end_line_not_begin _ H) as B. unfold is_begin_line in B. rewrite B.
  unfold is_end_line in H. now rewrite H.
Qed.

Lemma read_conll_chunk_token l r :
  is_token_line l = true ->
  read_conll_chunk (l :: r)
  = (Segment (l :: fst (read_segment_lines r)), snd (read_segment_lines r)).
Proof.
  unfold is_token_line, is_begin_line, is_end_line. intros H.
  apply andb_true_iff in H as [H He]. apply andb_true_iff in H as [Hb Hg].
  apply negb_true_iff in Hb, Hg, He.
  unfold read_conll_chunk. simpl readline. cbv iota beta.
  rewrite Hb, Hg, He. destruct (read_segment_lines r). reflexivity.
Qed.

(** The chunk a line starts, by the kind of the line. *)
Lemma read_conll_chunk_cons l r :
  (is_blank l = true /\ read_conll_chunk (l :: r) = (EndFile, r)) \/
  (is_begin_line l = true /\
   read_conll_chunk (l :: r)
   = (BeginDocument (strip (drop (String.length "#begin document") l)), r)) \/
  (is_end_line l = true /\ read_conll_chunk (l :: r) = (EndDocument, r)) \/
  (is_token_line l = true /\
   read_conll_chunk (l :: r)
   = (Segment (l :: fst (read_segment_lines r)), snd (read_segment_lines r))).
Proof.
  destruct (is_blank l) eqn:Hb; [left; auto using read_conll_chunk_blank|].
  destruct (is_begin_line l) eqn:Hg; [right; left; auto using read_conll_chunk_begin|].
  destruct (is_end_line l) eqn:He; [right; right; left; auto using read_conll_chunk_end|].
  right; right; right. assert (T : is_token_line l = true).
  { unfold is_token_line. now rewrite Hb, Hg, He. }
  auto using read_conll_chunk_token.
Qed.

Lemma read_segment_lines_length h :
  (List.length (snd (read_segment_lines h)) <= List.length h)%nat.
Proof.
  induction h as [|l r IH]; simpl; [lia|].
  destruct (is_blank l); simpl; [lia|].
  destruct (read_segment_lines r); simpl in *. lia.
Qed.

(** The lines of a sentence, up to the blank line after it. *)
Lemma read_segment_lines_app ls blank more :
  Forall (fun l => is_token_line l = true) ls ->
  is_blank blank = true ->
  read_segment_lines (ls ++ blank :: more) = (map strip ls, more).
Proof.
  intros Hls Hb. induction Hls as [|l ls Hl _ IH]; simpl.
  - now rewrite Hb.
  - unfold is_token_line in Hl. apply andb_true_iff in Hl as [Hl _].
    apply andb_true_iff in Hl as [Hl _]. apply negb_true_iff in Hl.
    rewrite Hl, IH. reflexivity.
Qed.

(** A call of the chunk reader takes at least one line, except at the end
    of the file, where it returns [EndFile]. *)
Lemma read_conll_chunk_progress h c h' :
  read_conll_chunk h = (c, h') ->
  (List.length h' < List.length h)%nat \/ (h = [] /\ c = EndFile /\ h' = []).
Proof.
  destruct h as [|l r]; intros H.
  - right. rewrite read_conll_chunk_nil in H. inversion H; auto.
  - left. pose proof (read_segment_lines_length r) as L.
    destruct (read_conll_chunk_cons l r) as [[_ E]|[[_ E]|[[_ E]|[_ E]]]];
      rewrite E in H; inversion H; subst; simpl; lia.
Qed.

(** [EndFile] is returned at the end of the file and on a blank line,
    and only then. *)
Lemma read_conll_chunk_EndFile h :
  fst (read_conll_chunk h) = EndFile <->
  h = [] \/ exists l r, h = l :: r /\ is_blank l = true.
Proof.
  split.
  - destruct h as [|l r]; [auto|]. intros H. right. exists l, r. split; [reflexivity|].
    destruct (read_conll_chunk_cons l r) as [[B _]|[[_ E]|[[_ E]|[_ E]]]];
      [exact B | rewrite E in H; discriminate ..].
  - intros [->|(l & r & -> & B)]; [reflexivity|].
    now rewrite read_conll_chunk_blank.
Qed.

(* ===================================================================== *)
(** * The document assembler                                               *)
(* ===================================================================== *)

(** One turn of the loop of [read_conll_document]. *)
Lemma while_segment_eq nextchunk chunks h :
  while_segment nextchunk chunks h =
  if is_segment nextchunk then
    let '(c, h') := read_conll_chunk h in
    while_segment c (chunks ++ [nextchunk]) h'
  else (nextchunk, chunks, h).
Proof.
  rewrite while_segment_equation_1.
  destruct nextchunk; try reflexivity.
  cbn. unfold inspect. destruct (read_conll_chunk h) as [c' h']. reflexivity.
Qed.

(** The loop collects the segments in hand and ahead, and stops at the
    first chunk that is no segment. *)
Lemma while_segment_spec : forall n nextchunk chunks h,
  (loop_measure nextchunk h < n)%nat ->
  exists segments c h',
    while_segment nextchunk chunks h = (c, chunks ++ segments, h') /\
    Forall (fun c => is_segment c = true) segments /\
    is_segment c = false /\
    nextchunk :: fst (read_chunks (List.length segments) h) = segments ++ [c] /\
    snd (read_chunks (List.length segments) h) = h' /\
    (List.length h' <= List.length h)%nat.
Proof.
  induction n as [|n IH]; intros c0 chunks h Hn; [lia|].
  rewrite while_segment_eq. destruct (is_segment c0) eqn:Hseg.
  - destruct (read_conll_chunk h) as [c1 h1] eqn:E.
    assert (Hm : (loop_measure c1 h1 < n)%nat).
    { unfold loop_measure in *. rewrite Hseg in Hn.
      destruct (read_conll_chunk_progress _ _ _ E) as [L|(-> & -> & ->)].
      - destruct (is_segment c1); lia.
      - simpl in *. lia. }
    destruct (IH c1 (chunks ++ [c0]) h1 Hm)
      as (segs & c & h' & Hw & Hall & Hc & Hread & Hh & Hlen).
    exists (c0 :: segs), c, h'. rewrite Hw, <- app_assoc. simpl. rewrite E.
    destruct (read_chunks (List.length segs) h1) as [cs h2] eqn:R. simpl in *.
    repeat split; auto.
    + congruence.
    + destruct (read_conll_chunk_progress _ _ _ E) as [L|(-> & -> & ->)]; simpl in *; lia.
  - exists [], c0, h. rewrite app_nil_r. simpl. repeat split; auto.
Qed.

(** What [read_conll_document] does, by the chunks it reads. *)
Lemma read_conll_document_cases h :
  match read_conll_chunk h with
  | (EndFile, h1) => read_conll_document h = Ok (None, h1)
  | (BeginDocument doc_id, h1) =>
      exists segments c h',
        Forall (fun c => is_segment c = true) segments /\
        is_segment c = false /\
        fst (read_chunks (S (List.length segments)) h1) = segments ++ [c] /\
        snd (read_chunks (S (List.length segments)) h1) = h' /\
        (List.length h' <= List.length h1)%nat /\
        read_conll_document h =
          match c with
          | EndDocument => Ok (Some (doc_id, segments), h')
          | _ => Raise (Exception (conll_type c))
          end
  | (c, _) => read_conll_document h = Raise (Exception (conll_type c))
  end.
Proof.
  unfold read_conll_document.
  destruct (read_conll_chunk h) as [first h1] eqn:E1.
  destruct first as [doc_id| | |ls]; try reflexivity.
  simpl. destruct (read_conll_chunk h1) as [c1 h2] eqn:E2.
  destruct (while_segment_spec (S (loop_measure c1 h2)) c1 [] h2 (Nat.lt_succ_diag_r _))
    as (segs & c & h' & Hw & Hall & Hc & Hread & Hh & Hlen).
  exists segs, c, h'. rewrite Hw. simpl.
  destruct (read_chunks (List.length segs) h2) as [cs h3]. simpl in *.
  repeat split; auto.
  - destruct (read_conll_chunk_progress _ _ _ E2) as [L|(-> & -> & ->)]; simpl in *; lia.
  - destruct c; reflexivity.
Qed.

Lemma read_chunks_length n : forall h, List.length (fst (read_chunks n h)) = n.
Proof.
  induction n as [|n IH]; intros h; simpl; [reflexivity|].
  destruct (read_conll_chunk h) as [c h1]. specialize (IH h1).
  destruct (read_chunks n h1). simpl in *. congruence.
Qed.

Lemma read_chunks_add a b : forall h,
  read_chunks (a + b) h =
  (fst (read_chunks a h) ++ fst (read_chunks b (snd (read_chunks a h))),
   snd (read_chunks b (snd (read_chunks a h)))).
Proof.
  induction a as [|a IH]; intros h; simpl.
  - destruct (read_chunks b h); reflexivity.
  - destruct (read_conll_chunk h) as [c h1]. rewrite IH.
    destruct (read_chunks a h1). reflexivity.
Qed.

(** Two runs of chunks from the same handle: one is the start of the
    other. *)
Lemma read_chunks_prefix a b h :
  exists more, fst (read_chunks a h) = fst (read_chunks b h) ++ more \/
               fst (read_chunks b h) = fst (read_chunks a h) ++ more.
Proof.
  destruct (Nat.le_ge_cases a b) as [L|L].
  - replace b with (a + (b - a))%nat by lia. rewrite (read_chunks_add a). simpl. eauto.
  - replace a with (b + (a - b))%nat by lia. rewrite (read_chunks_add b). simpl. eauto.
Qed.

(** Segments followed by a chunk that is no segment: the split is
    unique. *)
Lemma segments_then_other segs : forall segs' c c' r r',
  Forall (fun c => is_segment c = true) segs ->
  Forall (fun c => is_segment c = true) segs' ->
  is_segment c = false -> is_segment c' = false ->
  segs ++ c :: r = segs' ++ c' :: r' ->
  segs = segs' /\ c = c' /\ r = r'.
Proof.
  induction segs as [|x segs IH]; intros segs' c c' r r' H1 H2 Hc Hc' E.
  - destruct segs' as [|y segs']; simpl in E; inversion E; subst; auto.
    inversion H2; subst. congruence.
  - destruct segs' as [|y segs']; simpl in E; inversion E; subst.
    + inversion H1; subst. congruence.
    + apply Forall_inv_tail in H1, H2.
      destruct (IH _ _ _ _ _ H1 H2 Hc Hc' ltac:(eassumption)) as (-> & -> & ->). auto.
Qed.

(** On a document the assembler returns its id and its segments. *)
Lemma read_conll_document_conforming h n doc_id segments :
  fst (read_chunks n h) = BeginDocument doc_id :: segments ++ [EndDocument] ->
  Forall (fun c => is_segment c = true) segments ->
  read_conll_document h = Ok (Some (doc_id, segments), snd (read_chunks n h)).
Proof.
  intros Hcs Hall.
  assert (Hn : n = S (S (List.length segments))).
  { rewrite <- (read_chunks_length n h), Hcs. simpl. rewrite length_app. simpl. lia. }
  subst n. pose proof (read_conll_document_cases h) as Hcases.
  remember (S (List.length segments)) as k. simpl in Hcs |- *.
  destruct (read_conll_chunk h) as [first h1].
  destruct (read_chunks k h1) as [cs hk] eqn:Rk. simpl in Hcs |- *.
  inversion Hcs; subst first cs. clear Hcs.
  destruct Hcases as (segs' & c & h' & Hall' & Hc & Hread & Hh & _ & Hdoc).
  assert (U : segments = segs' /\ EndDocument = c).
  { destruct (read_chunks_prefix k (S (List.length segs')) h1)
      as [more [E|E]]; rewrite Hread, Rk in E; simpl in E;
      rewrite <- app_assoc in E; simpl in E.
    - destruct (segments_then_other segments segs' EndDocument c [] more
                  Hall Hall' eq_refl Hc E) as (? & ? & _); auto.
    - destruct (segments_then_other segs' segments c EndDocument [] more
                  Hall' Hall Hc eq_refl E) as (? & ? & _); auto. }
  destruct U as [<- <-]. rewrite <- Heqk, Rk in Hh. simpl in Hh. subst h'. exact Hdoc.
Qed.

(** C3 (as the code has it). [read_conll_document] on a file:
    - when the first chunk is [EndFile], it returns [(None, None)], no
      error;
    - otherwise, and unless the next chunks are a [BeginDocument] directly
      followed by an [EndDocument], it raises the "Unexpected chunk"
      exception exactly when the next chunks are not one [BeginDocument],
      one or more [Segment]s and one [EndDocument];
    - on such a sequence it returns the document id and the segments;
    - a [BeginDocument] directly followed by another one raises, and so
      does an [EndFile] met after the [BeginDocument] and before any
      [EndDocument]. *)
Theorem read_conll_document_grammar (h : handle) :
  (fst (read_conll_chunk h) = EndFile ->
     read_conll_document h = Ok (None, snd (read_conll_chunk h))) /\
  (fst (read_conll_chunk h) <> EndFile -> ~ no_segment_document h ->
     ((exists kind, read_conll_document h = Raise (Exception kind)) <-> ~ conforms h)) /\
  (forall n doc_id segments,
     is_document doc_id segments (fst (read_chunks n h)) ->
     read_conll_document h = Ok (Some (doc_id, segments), snd (read_chunks n h))) /\
  (forall d d', fst (read_chunks 2 h) = [BeginDocument d; BeginDocument d'] ->
     read_conll_document h = Raise (Exception "begin")) /\
  (forall n d segments,
     fst (read_chunks n h) = BeginDocument d :: segments ++ [EndFile] ->
     Forall (fun c => is_segment c = true) segments ->
     read_conll_document h = Raise (Exception "eof")).
Proof.
  assert (Conf : forall n doc_id segments,
             is_document doc_id segments (fst (read_chunks n h)) ->
             read_conll_document h = Ok (Some (doc_id, segments), snd (read_chunks n h))).
  { intros n d segs (Hcs & _ & Hall). now apply read_conll_document_conforming. }
  assert (Other : forall n d segments c,
             fst (read_chunks n h) = BeginDocument d :: segments ++ [c] ->
             Forall (fun c => is_segment c = true) segments ->
             is_segment c = false -> c <> EndDocument ->
             read_conll_document h = Raise (Exception (conll_type c))).
  { intros n d segs c Hcs Hall Hc Hne.
    assert (Hn : n = S (S (List.length segs))).
    { rewrite <- (read_chunks_length n h), Hcs. simpl. rewrite length_app. simpl. lia. }
    subst n. pose proof (read_conll_document_cases h) as Hcases.
    remember (S (List.length segs)) as k. simpl in Hcs.
    destruct (read_conll_chunk h) as [first h1].
    destruct (read_chunks k h1) as [cs hk] eqn:Rk. simpl in Hcs.
    inversion Hcs; subst first cs. clear Hcs.
    destruct Hcases as (segs' & c' & h' & Hall' & Hc' & Hread & _ & _ & Hdoc).
    assert (U : c = c').
    { destruct (read_chunks_prefix k (S (List.length segs')) h1)
        as [more [E|E]]; rewrite Hread, Rk in E; simpl in E;
        rewrite <- app_assoc in E; simpl in E.
      - destruct (segments_then_other segs segs' c c' [] more
                    Hall Hall' Hc Hc' E) as (_ & ? & _); auto.
      - destruct (segments_then_other segs' segs c' c [] more
                    Hall' Hall Hc' Hc E) as (_ & ? & _); auto. }
    subst c'. rewrite Hdoc. destruct c; try reflexivity. congruence. }
  split; [|split; [|split; [|split]]].
  - pose proof (read_conll_document_cases h) as Hcases.
    destruct (read_conll_chunk h) as [first h1]. simpl. intros ->. exact Hcases.
  - intros Hfirst Hzero. split.
    + intros [kind Hraise] (n & d & segs & Hdoc).
      rewrite (Conf _ _ _ Hdoc) in Hraise. discriminate.
    + intros Hnot. pose proof (read_conll_document_cases h) as Hcases.
      destruct (read_conll_chunk h) as [first h1] eqn:E1. simpl in Hfirst.
      destruct first as [d| | |ls]; [|eauto|congruence|eauto].
      destruct Hcases as (segs & c & h' & Hall & Hc & Hread & _ & _ & Hdoc).
      assert (Hcs : fst (read_chunks (S (S (List.length segs))) h)
                    = BeginDocument d :: segs ++ [c]).
      { remember (S (List.length segs)) as k. simpl. rewrite E1.
        destruct (read_chunks k h1). simpl in *. congruence. }
      destruct c; try (rewrite Hdoc; eauto).
      exfalso. destruct segs as [|s0 segs].
      * apply Hzero. exists d. exact Hcs.
      * apply Hnot. exists (S (S (List.length (s0 :: segs)))), d, (s0 :: segs).
        split; [exact Hcs|]. split; [discriminate | exact Hall].
  - exact Conf.
  - intros d d' Hcs. apply (Other 2%nat d [] (BeginDocument d')); auto. discriminate.
  - intros n d segs Hcs Hall. apply (Other n d segs EndFile); auto. discriminate.
Qed.

(** C3, counterexample. At the end of the file the next chunk is an
    [EndFile]: the chunks are no document, an [EndFile] comes before any
    [EndDocument], and [read_conll_document] raises nothing; it returns
    [(None, None)]. *)
Lemma end_of_file_is_not_an_error :
  fst (read_chunks 1 []) = [EndFile] /\
  ~ conforms [] /\
  read_conll_document [] = Ok (None, []) /\
  forall e, read_conll_document [] <> Raise e.
Proof.
  split; [reflexivity|]. split; [|split; [reflexivity | intros e; discriminate]].
  intros (n & d & segs & Hcs & _). destruct n as [|n]; simpl in Hcs; [discriminate|].
  destruct (read_chunks n []). discriminate.
Qed.

Lemma read_conll_document_grammar_witness :
  read_conll_document (readlines double_begin_text) = Raise (Exception "begin") /\
  read_conll_document (readlines two_documents_text)
    = Ok (Some ("(a); part 000",
                [Segment [("a 0 0 -LRB- - (1" ++ LF)%string; "a 0 1 -RRB- - 1)"]]),
          snd (read_chunks 3 (readlines two_documents_text))).
Proof.
  split.
  - apply (proj1 (proj2 (proj2 (proj2 (read_conll_document_grammar
             (readlines double_begin_text)))))
             "(a); part 000" "(b); part 000").
    reflexivity.
  - apply (proj1 (proj2 (proj2 (read_conll_document_grammar
             (readlines two_documents_text))))
             3%nat "(a); part 000"
             [Segment [("a 0 0 -LRB- - (1" ++ LF)%string; "a 0 1 -RRB- - 1)"]]).
    split; [reflexivity|]. split; [discriminate | repeat constructor].
Defined.

(** A document without any segment is taken as it comes: the loop of
    [read_conll_document] may run zero times. *)
Example read_conll_document_no_segment :
  read_conll_document
    [("#begin document (a)" ++ LF)%string; ("#end document" ++ LF)%string]
  = Ok (Some ("(a)", []), []).
Proof. reflexivity. Qed.

Example read_conll_document_end_of_file_inside :
  read_conll_document
    [("#begin document (a)" ++ LF)%string; ("t 0 0 w - -" ++ LF)%string]
  = Raise (Exception "eof").
Proof. reflexivity. Qed.

(* ===================================================================== *)
(** * The corpus iterator                                                  *)
(* ===================================================================== *)

(** A document yielded costs at least its begin line. *)
Lemma resume_progress h doc h' :
  resume h = Yield doc h' -> (List.length h' < List.length h)%nat.
Proof.
  unfold resume. pose proof (read_conll_document_cases h) as Hcases.
  destruct (read_conll_chunk h) as [first h1] eqn:E1.
  destruct first as [d| | |ls]; try (rewrite Hcases; discriminate).
  destruct Hcases as (segs & c & h2 & _ & _ & _ & _ & Hlen & Hdoc).
  rewrite Hdoc. destruct c; try discriminate.
  destruct (comprehension process_conll_sentence segs); [|discriminate].
  intros H. inversion H; subst.
  destruct (read_conll_chunk_progress _ _ _ E1) as [L|(_ & ? & _)]; [lia | discriminate].
Qed.

(** With more pulls than lines the generator has ended, and has yielded
    at most one document per line. *)
Lemma read_conll_file_ends : forall pulls h,
  (List.length h < pulls)%nat ->
  exists docs st,
    read_conll_file pulls h = (docs, st) /\
    (st = Exhausted \/ exists e, st = Raised e) /\
    (List.length docs <= List.length h)%nat.
Proof.
  induction pulls as [|pulls IH]; intros h Hp; [lia|].
  simpl. destruct (resume h) as [doc h'| |e] eqn:R.
  - apply resume_progress in R.
    destruct (IH h' ltac:(lia)) as (docs & st & -> & Hst & Hlen).
    exists (doc :: docs), st. simpl. repeat split; auto. lia.
  - exists [], Exhausted. simpl. repeat split; auto. lia.
  - exists [], (Raised e). simpl. repeat split; eauto. lia.
Qed.

(** Pulling more after the end changes nothing. *)
Lemma read_conll_file_stable : forall pulls pulls' h,
  (List.length h < pulls)%nat -> (List.length h < pulls')%nat ->
  read_conll_file pulls h = read_conll_file pulls' h.
Proof.
  induction pulls as [|pulls IH]; intros pulls' h Hp Hp'; [lia|].
  destruct pulls' as [|pulls']; [lia|].
  simpl. destruct (resume h) as [doc h'| |e] eqn:R; try reflexivity.
  apply resume_progress in R. rewrite (IH pulls' h'); [reflexivity | lia | lia].
Qed.

Lemma resume_EndFile h :
  fst (read_conll_chunk h) = EndFile ->
  read_conll_document h = Ok (None, snd (read_conll_chunk h)) /\ resume h = Finished.
Proof.
  intros H. pose proof (read_conll_document_cases h) as Hcases. unfold resume.
  destruct (read_conll_chunk h) as [first h1]. simpl in H. subst first.
  rewrite Hcases. auto.
Qed.

(** C10. The corpus iterator terminates on every file: pulled more often
    than the file has lines, the generator has ended (exhausted, or by an
    exception), whatever the number of pulls.  Each call of the chunk
    reader takes at least one line or, at the end of the file, returns
    [EndFile]; a blank line gives [EndFile] too; and on [EndFile] as the
    first chunk the assembler returns [(None, None)], which ends the
    loop of the generator. *)
Theorem read_conll_file_terminates (h : handle) (pulls : nat) :
  (List.length h < pulls)%nat ->
  (exists docs st,
     read_conll_file pulls h = (docs, st) /\
     (st = Exhausted \/ exists e, st = Raised e) /\
     (List.length docs <= List.length h)%nat) /\
  read_conll_file pulls h = read_conll_file (S (List.length h)) h /\
  (forall c h', read_conll_chunk h = (c, h') ->
     (List.length h' < List.length h)%nat \/ (h = [] /\ c = EndFile /\ h' = [])) /\
  (h = [] \/ (exists l r, h = l :: r /\ is_blank l = true) ->
     fst (read_conll_chunk h) = EndFile) /\
  (fst (read_conll_chunk h) = EndFile ->
     read_conll_document h = Ok (None, snd (read_conll_chunk h)) /\
     resume h = Finished /\
     read_conll_file pulls h = ([], Exhausted)).
Proof.
  intros Hp. split; [now apply read_conll_file_ends|].
  split; [apply read_conll_file_stable; lia|].
  split; [apply read_conll_chunk_progress|].
  split; [apply read_conll_chunk_EndFile|].
  intros H. destruct (resume_EndFile h H) as [Hdoc Hres].
  repeat split; auto. destruct pulls as [|pulls]; [lia|]. simpl. now rewrite Hres.
Qed.

Lemma read_conll_file_terminates_witness :
  read_conll_file 7 (readlines example_text)
  = read_conll_file 6 (readlines example_text).
Proof.
  exact (proj1 (proj2 (read_conll_file_terminates (readlines example_text) 7
                         ltac:(vm_compute; lia)))).
Defined.

Example read_conll_file_example :
  read_whole_file example_text
  = ([Document.init "(test)" [["("; ")"]] [[(0%nat, 0, 1)%Z]]], Exhausted).
Proof. reflexivity. Qed.

Example read_conll_file_raises :
  read_whole_file ("#begin document (a)" ++ LF ++ "t 0 1 b - 3)" ++ LF ++ LF
                   ++ "#end document" ++ LF)
  = ([], Raised RuntimeError).
Proof. reflexivity. Qed.

(** ** Well-formed files *)

Lemma begin_line_not_end l : is_begin_line l = true -> is_end_line l = false.
Proof.
  intros H. apply startswith_head in H as (l1 & -> & H).
  apply startswith_head in H as (l2 & -> & _). reflexivity.
Qed.

Lemma sentences_lines_segments body chunks :
  sentences_lines body chunks -> Forall (fun c => is_segment c = true) chunks.
Proof. induction 1; constructor; auto. Qed.

(** The lines of the sentences are read as their segments. *)
Lemma read_chunks_sentences body chunks tail :
  sentences_lines body chunks ->
  read_chunks (List.length chunks) (body ++ tail) = (chunks, tail).
Proof.
  induction 1 as [|first rest blank more chunks Hfirst Hrest Hblank _ IH]; [reflexivity|].
  simpl. rewrite read_conll_chunk_token by assumption.
  rewrite <- app_assoc. simpl.
  rewrite (read_segment_lines_app rest blank (more ++ tail) Hrest Hblank). simpl.
  rewrite IH. reflexivity.
Qed.

(** No line of the sentences is a marker. *)
Lemma sentences_lines_markers body chunks :
  sentences_lines body chunks ->
  filter is_begin_line body = [] /\ filter is_end_line body = [].
Proof.
  assert (T : forall l, is_token_line l = true ->
                        is_begin_line l = false /\ is_end_line l = false).
  { unfold is_token_line. intros l H. apply andb_true_iff in H as [H He].
    apply andb_true_iff in H as [_ Hb]. now apply negb_true_iff in Hb, He. }
  assert (B : forall l, is_blank l = true ->
                        is_begin_line l = false /\ is_end_line l = false).
  { intros l H. split.
    - destruct (is_begin_line l) eqn:E; [|reflexivity].
      apply begin_line_not_blank in E. congruence.
    - destruct (is_end_line l) eqn:E; [|reflexivity].
      apply end_line_not_blank in E. congruence. }
  induction 1 as [|first rest blank more chunks Hfirst Hrest Hblank _ [IHb IHe]];
    [auto|].
  destruct (T _ Hfirst) as [F1 F2]. destruct (B _ Hblank) as [B1 B2].
  simpl. rewrite F1, F2, !filter_app. simpl. rewrite B1, B2, IHb, IHe, !app_nil_r.
  clear -Hrest T. induction Hrest as [|l ls Hl _ [I1 I2]]; [auto|].
  destruct (T _ Hl) as [L1 L2]. simpl. rewrite L1, L2. auto.
Qed.

(** A well-formed document is yielded whole, the file left at the line
    after its end line. *)
Lemma resume_document begin_line body chunks sents end_line rest :
  is_begin_line begin_line = true ->
  sentences_lines body chunks ->
  comprehension process_conll_sentence chunks = Ok sents ->
  is_end_line end_line = true ->
  resume (begin_line :: body ++ end_line :: rest)
  = Yield (process_conll_document
             (strip (drop (String.length "#begin document") begin_line)) sents) rest.
Proof.
  intros Hb Hbody Hsents He. unfold resume.
  rewrite (read_conll_document_conforming _ (S (List.length chunks + 1))
             (strip (drop (String.length "#begin document") begin_line)) chunks).
  - simpl read_chunks. rewrite read_conll_chunk_begin by assumption.
    rewrite read_chunks_add, (read_chunks_sentences _ _ _ Hbody). simpl.
    rewrite read_conll_chunk_end by assumption. simpl. now rewrite Hsents.
  - simpl read_chunks. rewrite read_conll_chunk_begin by assumption.
    rewrite read_chunks_add, (read_chunks_sentences _ _ _ Hbody). simpl.
    rewrite read_conll_chunk_end by assumption. reflexivity.
  - eapply sentences_lines_segments; eauto.
Qed.

(** C4. On a well-formed file of N documents (N begin lines and N end
    lines) the corpus iterator yields exactly the N documents, in file
    order, and then stops: pulled more than N times it has yielded all of
    them and is exhausted, pulled k <= N times it has yielded the first
    k. *)
Theorem read_conll_file_yields_documents (h : handle) (docs : list Document.t) :
  well_formed h docs ->
  (forall pulls, (List.length docs < pulls)%nat ->
     read_conll_file pulls h = (docs, Exhausted)) /\
  (forall pulls, (pulls <= List.length docs)%nat ->
     fst (read_conll_file pulls h) = firstn pulls docs) /\
  List.length (filter is_begin_line h) = List.length docs /\
  List.length (filter is_end_line h) = List.length docs.
Proof.
  induction 1 as [|begin_line body chunks sents end_line rest docs
                    Hb Hbody Hsents He _ (IH1 & IH2 & IH3 & IH4)].
  - repeat split; try reflexivity.
    + intros [|pulls] Hp; [simpl in Hp; lia | reflexivity].
    + intros [|pulls] Hp; [reflexivity | simpl in Hp; lia].
  - pose proof (resume_document _ _ _ _ _ rest Hb Hbody Hsents He) as R.
    destruct (sentences_lines_markers _ _ Hbody) as [M1 M2].
    repeat split.
    + intros [|pulls] Hp; [lia|]. simpl in Hp. simpl read_conll_file. rewrite R.
      rewrite IH1 by lia. reflexivity.
    + intros [|pulls] Hp; [reflexivity|]. simpl in Hp. simpl read_conll_file. rewrite R.
      specialize (IH2 pulls ltac:(lia)).
      destruct (read_conll_file pulls rest). simpl in *. now rewrite IH2.
    + simpl. rewrite Hb, filter_app, M1. simpl.
      rewrite (end_line_not_begin _ He). simpl. now rewrite IH3.
    + simpl. rewrite (begin_line_not_end _ Hb), filter_app, M2. simpl.
      rewrite He. simpl. now rewrite IH4.
Qed.

Lemma read_conll_file_yields_documents_witness :
  read_conll_file 3 (readlines two_documents_text)
  = ([Document.init "(a); part 000" [["("; ")"]] [[(0%nat, 0, 1)%Z]];
      Document.init "(b); part 000" [["He"; "ran"]; ["He"; "."]]
        [[(0%nat, 0, 0); (1%nat, 0, 0)]; [(1%nat, 0, 1)]]%Z],
     Exhausted).
Proof.
  refine (proj1 (read_conll_file_yields_documents (readlines two_documents_text) _ _) 3%nat _).
  - apply (well_formed_document ("#begin document (a); part 000" ++ LF)%string
             [("a 0 0 -LRB- - (1" ++ LF)%string; ("a 0 1 -RRB- - 1)" ++ LF)%string; LF]
             [Segment [("a 0 0 -LRB- - (1" ++ LF)%string; "a 0 1 -RRB- - 1)"]]
             [Sentence.init ["-LRB-"; "-RRB-"] [(1, 0, 1)%Z]]
             ("#end document" ++ LF)%string).
    + reflexivity.
    + apply (sentences_cons ("a 0 0 -LRB- - (1" ++ LF)%string [("a 0 1 -RRB- - 1)" ++ LF)%string] LF [] []);
        [reflexivity | repeat constructor | reflexivity | constructor].
    + reflexivity.
    + reflexivity.
    + apply (well_formed_document ("#begin document (b); part 000" ++ LF)%string
               [("b 0 0 He - (2)" ++ LF)%string; ("b 0 1 ran - -" ++ LF)%string; LF; ("b 0 0 He - (2)|(3" ++ LF)%string; ("b 0 1 . - 3)" ++ LF)%string; LF]
               [Segment [("b 0 0 He - (2)" ++ LF)%string; "b 0 1 ran - -"];
                Segment [("b 0 0 He - (2)|(3" ++ LF)%string; "b 0 1 . - 3)"]]
               [Sentence.init ["He"; "ran"] [(2, 0, 0)%Z];
                Sentence.init ["He"; "."] [(2, 0, 0); (3, 0, 1)]%Z]
               ("#end document" ++ LF)%string [] []).
      * reflexivity.
      * apply (sentences_cons ("b 0 0 He - (2)" ++ LF)%string [("b 0 1 ran - -" ++ LF)%string] LF
                 [("b 0 0 He - (2)|(3" ++ LF)%string; ("b 0 1 . - 3)" ++ LF)%string; LF]
                 [Segment [("b 0 0 He - (2)|(3" ++ LF)%string; "b 0 1 . - 3)"]]);
          [reflexivity | repeat constructor | reflexivity |].
        apply (sentences_cons ("b 0 0 He - (2)|(3" ++ LF)%string [("b 0 1 . - 3)" ++ LF)%string] LF [] []);
          [reflexivity | repeat constructor | reflexivity | constructor].
      * reflexivity.
      * reflexivity.
      * constructor.
  - simpl. lia.
Defined.

Lemma mentions_grouped_by_entity_witness :
  In (1%nat, 0, 1)%Z
     (cluster_of 3
        (indexed_references 0
           [Sentence.init ["He"; "ran"] [(2, 0, 0)%Z];
            Sentence.init ["He"; "."] [(2, 0, 0); (3, 0, 1)]%Z])) /\
  In (cluster_of 3
        (indexed_references 0
           [Sentence.init ["He"; "ran"] [(2, 0, 0)%Z];
            Sentence.init ["He"; "."] [(2, 0, 0); (3, 0, 1)]%Z]))
     (Document.mentions
        (process_conll_document "(b)"
           [Sentence.init ["He"; "ran"] [(2, 0, 0)%Z];
            Sentence.init ["He"; "."] [(2, 0, 0); (3, 0, 1)]%Z])).
Proof.
  refine (proj1 (proj2 (proj2 (proj2 (proj2
            (mentions_grouped_by_entity "(b)"
               [Sentence.init ["He"; "ran"] [(2, 0, 0)%Z];
                Sentence.init ["He"; "."] [(2, 0, 0); (3, 0, 1)]%Z])))))
            1%nat (Sentence.init ["He"; "."] [(2, 0, 0); (3, 0, 1)]%Z) 3%Z 0%Z 1%Z
            eq_refl _).
  simpl. right. left. reflexivity.
Defined.

(* ===================================================================== *)
(** * Whitespace: [strip] and [split]                                      *)
(* ===================================================================== *)

Lemma string_app_nil_r (s : string) : (s ++ "")%string = s.
Proof. induction s as [|c s IH]; simpl; congruence. Qed.

Lemma string_app_assoc (a b c : string) :
  ((a ++ b) ++ c)%string = (a ++ (b ++ c))%string.
Proof. induction a as [|x a IH]; simpl; congruence. Qed.

Lemma rev_onto_app s acc : rev_onto s acc = (reverse s ++ acc)%string.
Proof.
  unfold reverse. revert acc. induction s as [|c s IH]; intros acc; simpl; [reflexivity|].
  rewrite IH, (IH (String c EmptyString)), string_app_assoc. reflexivity.
Qed.

Lemma reverse_cons c s : reverse (String c s) = (reverse s ++ String c "")%string.
Proof. unfold reverse at 1. simpl. apply rev_onto_app. Qed.

Lemma reverse_app a b : reverse (a ++ b) = (reverse b ++ reverse a)%string.
Proof.
  induction a as [|c a IH]; simpl.
  - now rewrite string_app_nil_r.
  - rewrite !reverse_cons, IH, string_app_assoc. reflexivity.
Qed.

Lemma reverse_involutive s : reverse (reverse s) = s.
Proof.
  induction s as [|c s IH]; [reflexivity|].
  rewrite reverse_cons, reverse_app, IH. reflexivity.
Qed.

Lemma all_space_reverse s : all_space (reverse s) = all_space s.
Proof. unfold reverse. rewrite all_space_rev_onto. simpl. apply andb_true_r. Qed.

Lemma lstrip_all_space s : all_space s = true -> lstrip s = EmptyString.
Proof.
  induction s as [|c s IH]; simpl; [reflexivity|].
  destruct (is_space c); simpl; [exact IH | discriminate].
Qed.

Lemma lstrip_app a b :
  lstrip (a ++ b) = if all_space a then lstrip b else (lstrip a ++ b)%string.
Proof.
  induction a as [|c a IH]; simpl; [reflexivity|].
  destruct (is_space c); simpl; [exact IH | reflexivity].
Qed.

(** [rstrip] from the front of the string. *)
Lemma rstrip_cons c s :
  rstrip (String c s) =
  if all_space s then (if is_space c then EmptyString else String c EmptyString)
  else String c (rstrip s).
Proof.
  unfold rstrip. rewrite reverse_cons, lstrip_app, all_space_reverse.
  destruct (all_space s).
  - simpl. destruct (is_space c); reflexivity.
  - rewrite reverse_app. reflexivity.
Qed.

Lemma rstrip_all_space s : all_space s = true -> rstrip s = EmptyString.
Proof.
  intros H. unfold rstrip. rewrite lstrip_all_space; [reflexivity|].
  now rewrite all_space_reverse.
Qed.

Lemma all_space_rstrip s : all_space (rstrip s) = all_space s.
Proof.
  induction s as [|c s IH]; [reflexivity|].
  rewrite rstrip_cons. cbn [all_space]. destruct (all_space s) eqn:A.
  - destruct (is_space c) eqn:C; cbn [all_space]; rewrite ?C; reflexivity.
  - cbn [all_space]. now rewrite IH.
Qed.

Lemma rstrip_idempotent s : rstrip (rstrip s) = rstrip s.
Proof.
  induction s as [|c s IH]; [reflexivity|].
  rewrite rstrip_cons. destruct (all_space s) eqn:A.
  - destruct (is_space c) eqn:C; [reflexivity|]. rewrite rstrip_cons. simpl. now rewrite C.
  - rewrite rstrip_cons, all_space_rstrip, A, IH. reflexivity.
Qed.

(** A stripped string starts with no whitespace. *)
Lemma lstrip_rstrip_lstrip s : lstrip (rstrip (lstrip s)) = rstrip (lstrip s).
Proof.
  induction s as [|c s IH]; [reflexivity|]. simpl.
  destruct (is_space c) eqn:C; [exact IH|].
  rewrite rstrip_cons. destruct (all_space s); simpl; rewrite ?C; simpl; now rewrite ?C.
Qed.

Lemma strip_idempotent s : strip (strip s) = strip s.
Proof.
  unfold strip. rewrite lstrip_rstrip_lstrip. apply rstrip_idempotent.
Qed.

Lemma is_blank_strip s : is_blank (strip s) = is_blank s.
Proof. unfold is_blank. now rewrite strip_idempotent. Qed.

Lemma split_from_all_space cur s :
  all_space s = true -> split_from cur s = flush cur.
Proof.
  revert cur. induction s as [|c s IH]; intros cur H; simpl in *; [reflexivity|].
  apply andb_true_iff in H as [C A]. rewrite C, (IH _ A). simpl. apply app_nil_r.
Qed.

Lemma split_from_lstrip s : split_from EmptyString (lstrip s) = split_from EmptyString s.
Proof.
  induction s as [|c s IH]; simpl; [reflexivity|].
  destruct (is_space c) eqn:C; simpl; [exact IH | now rewrite C].
Qed.

Lemma split_from_rstrip s : forall cur, split_from cur (rstrip s) = split_from cur s.
Proof.
  induction s as [|c s IH]; intros cur; [reflexivity|].
  rewrite rstrip_cons. destruct (all_space s) eqn:A.
  - simpl. destruct (is_space c) eqn:C; simpl.
    + rewrite (split_from_all_space _ _ A). simpl. now rewrite app_nil_r.
    + rewrite C. simpl. now rewrite (split_from_all_space _ _ A).
  - simpl. destruct (is_space c); now rewrite IH.
Qed.

(** [split] does not see the whitespace that [strip] takes away. *)
Lemma split_strip s : split (strip s) = split s.
Proof. unfold split, strip. now rewrite split_from_rstrip, split_from_lstrip. Qed.

Lemma no_space_rev_onto s acc : no_space (rev_onto s acc) = no_space s && no_space acc.
Proof.
  revert acc. induction s as [|c s IH]; intros acc; simpl; [reflexivity|].
  rewrite IH. simpl. destruct (no_space s), (is_space c), (no_space acc); reflexivity.
Qed.

Lemma reverse_empty s : reverse s = EmptyString -> s = EmptyString.
Proof.
  intros H. apply (f_equal String.length) in H. unfold reverse in H.
  rewrite rev_onto_length in H. destruct s; [reflexivity | simpl in H; lia].
Qed.

Lemma flush_words cur : no_space cur = true -> Forall (fun w => is_word w = true) (flush cur).
Proof.
  intros H. destruct cur as [|c cur]; simpl; constructor; [|constructor].
  unfold is_word. apply andb_true_iff. split.
  - apply negb_true_iff, String.eqb_neq. intros E. apply reverse_empty in E. discriminate.
  - unfold reverse. rewrite no_space_rev_onto, H. reflexivity.
Qed.

(** The fields of a line are words. *)
Lemma split_from_words s : forall cur,
  no_space cur = true -> Forall (fun w => is_word w = true) (split_from cur s).
Proof.
  induction s as [|c s IH]; intros cur H; simpl; [now apply flush_words|].
  destruct (is_space c) eqn:C.
  - apply Forall_app. split; [now apply flush_words | now apply IH].
  - apply IH. simpl. now rewrite C, H.
Qed.

Lemma split_words s : Forall (fun w => is_word w = true) (split s).
Proof. now apply split_from_words. Qed.

Lemma no_space_all_space s : no_space s = true -> all_space s = true -> s = EmptyString.
Proof.
  destruct s as [|c s]; simpl; [reflexivity|]. intros H A.
  destruct (is_space c); simpl in *; discriminate.
Qed.

(** [strip] leaves a string without whitespace as it is. *)
Lemma strip_no_space s : no_space s = true -> strip s = s.
Proof.
  intros H. unfold strip.
  assert (L : lstrip s = s).
  { destruct s as [|c s]; simpl in *; [reflexivity|]. now destruct (is_space c). }
  rewrite L. clear L. induction s as [|c s IH]; [reflexivity|].
  simpl in H. apply andb_true_iff in H as [C N]. apply negb_true_iff in C.
  rewrite rstrip_cons, C. destruct (all_space s) eqn:A.
  - now rewrite (no_space_all_space _ N A).
  - now rewrite (IH N).
Qed.

Lemma split_from_word w : forall cur rest,
  no_space w = true ->
  split_from cur (w ++ rest) = split_from (rev_onto w cur) rest.
Proof.
  induction w as [|c w IH]; intros cur rest H; simpl; [reflexivity|].
  simpl in H. apply andb_true_iff in H as [C N]. apply negb_true_iff in C.
  rewrite C. now apply IH.
Qed.

Lemma flush_reverse w : is_word w = true -> flush (reverse w) = [w].
Proof.
  unfold is_word. intros H. apply andb_true_iff in H as [E _].
  apply negb_true_iff, String.eqb_neq in E. unfold flush.
  destruct (reverse w) eqn:R.
  - apply reverse_empty in R. contradiction.
  - now rewrite <- R, reverse_involutive.
Qed.

(** Splitting the words joined with a space gives the words back. *)
Lemma split_join_words ws :
  Forall (fun w => is_word w = true) ws -> split (join " " ws) = ws.
Proof.
  unfold split. induction 1 as [|w ws Hw Hws IH]; [reflexivity|].
  assert (N : no_space w = true).
  { unfold is_word in Hw. now apply andb_true_iff in Hw as [_ N]. }
  simpl. destruct ws as [|w' ws].
  - rewrite <- (string_app_nil_r w) at 1. rewrite (split_from_word w _ _ N). simpl.
    now apply flush_reverse.
  - change (join " " (w :: w' :: ws))
      with (w ++ String " " (join " " (w' :: ws)))%string.
    rewrite (split_from_word w _ _ N).
    change (split_from (rev_onto w EmptyString) (String " " (join " " (w' :: ws))))
      with (flush (reverse w) ++ split_from EmptyString (join " " (w' :: ws))).
    rewrite (flush_reverse _ Hw), IH. reflexivity.
Qed.

(* ===================================================================== *)
(** * More on the segment decoder                                          *)
(* ===================================================================== *)

Lemma token_of_fields line tok :
  token_of line = Ok tok -> (4 <= List.length (split line))%nat.
Proof.
  unfold token_of, index. intros H.
  destruct (nth_error (split line) 3) eqn:E; [|discriminate].
  assert (L : (3 < List.length (split line))%nat).
  { apply nth_error_Some. congruence. }
  lia.
Qed.

(** What the loop over the lines adds to the tokens. *)
Lemma for_lines_tokens lines : forall acc st tokens' st',
  for_lines lines (acc, st) = Ok (tokens', st') ->
  exists toks,
    Forall2 (fun line tok => token_of line = Ok tok) lines toks /\
    tokens' = acc ++ toks /\
    Forall (fun line => fields_ok line = true) lines.
Proof.
  induction lines as [|line rest IH]; simpl; intros acc st tokens' st' H.
  - inversion H; subst. exists []. rewrite app_nil_r. repeat constructor.
  - bind_inv H. destruct a as [tokens1 st1].
    apply process_line_Ok in Ha as (pos & corefs & tok & Hp & _ & _ & Ht & ->).
    destruct (IH _ _ _ _ H) as (toks & F2 & -> & Fok).
    exists (tok :: toks). rewrite <- app_assoc. repeat split; auto.
    constructor; [|exact Fok]. unfold fields_ok. now rewrite Hp, Ht.
Qed.

(** X1. A segment the decoder accepts has, on every line, at least four
    fields and an integer as third field, and the Sentence holds exactly
    one token per line: the normalized fourth field of each line, in
    order. *)
Theorem accepted_segment_tokens (lines : list string) (s : Sentence.t) :
  process_conll_sentence (Segment lines) = Ok s ->
  Forall (fun line => fields_ok line = true /\
                      (4 <= List.length (split line))%nat) lines /\
  List.length (Sentence.tokens s) = List.length lines /\
  exists toks,
    Forall2 (fun line tok => token_of line = Ok tok) lines toks /\
    Sentence.tokens s = Sentence.normalize toks.
Proof.
  intros H. unfold process_conll_sentence in H. bind_inv H.
  destruct a as [tokens [open_list spans]]. inversion H; subst s. simpl.
  destruct (for_lines_tokens _ _ _ _ _ Ha) as (toks & F2 & -> & Fok). simpl.
  assert (L : List.length toks = List.length lines).
  { clear -F2. induction F2; simpl; congruence. }
  split; [|split; [now rewrite normalize_length | eauto]].
  clear -F2 Fok. induction F2 as [|line tok lines toks Ht _ IH]; [constructor|].
  inversion Fok; subst. constructor; [|auto].
  split; [assumption | eapply token_of_fields; eauto].
Qed.

Lemma accepted_segment_tokens_witness :
  List.length (Sentence.tokens
                 {| Sentence.tokens := ["("; "x"; ")"];
                    Sentence.references := [(2, 1, 1)%Z; (1, 0, 2)%Z] |})
  = 3%nat.
Proof.
  exact (proj1 (proj2 (accepted_segment_tokens
           [("t 0 0 -LRB- - (1" ++ LF)%string; "t 0 1 x - (2)"; "t 0 2 -RRB- - 1)"]
           _ eq_refl))).
Defined.

Lemma position_at_app lines more i p :
  position_at lines i p -> position_at (lines ++ more) i p.
Proof.
  intros (line & Hn & Hp). exists line. split; [|exact Hp].
  rewrite nth_error_app1; [exact Hn|]. apply nth_error_Some. congruence.
Qed.

Lemma positions_known_weaken lines k k' st :
  (k <= k')%nat -> positions_known lines k st -> positions_known lines k' st.
Proof.
  intros Hk [Ho Hs]. split.
  - intros x Hx. destruct (Ho x Hx) as (i & Hi & P). exists i. split; [lia | exact P].
  - intros e a b Hin. destruct (Hs e a b Hin) as (i & j & Hij & Hj & Pa & Pb).
    exists i, j. repeat split; auto. lia.
Qed.

Lemma process_coref_positions lines k p st coref st' :
  position_at lines k p ->
  positions_known lines (S k) st ->
  process_coref p st coref = Ok st' ->
  positions_known lines (S k) st'.
Proof.
  intros Hp [Ho Hs]. destruct st as [open_list spans]. simpl in Ho, Hs.
  unfold process_coref.
  destruct (startswith coref "(" && endswith coref ")").
  { intros H. bind_inv H. inversion H; subst. split; simpl; [exact Ho|].
    intros e s t Hin. apply in_app_or in Hin as [Hin|[Hin|[]]]; [eauto|].
    inversion Hin; subst. exists k, k. repeat split; auto. }
  destruct (startswith coref "(").
  { intros H. bind_inv H. inversion H; subst. split; simpl; [|exact Hs].
    intros x [<-|Hx]; [exists k; split; [lia | exact Hp] | eauto]. }
  destruct (endswith coref ")").
  { intros H. bind_inv H. bind_inv H. bind_inv H. inversion H; subst.
    unfold next_such in Ha0.
    destruct (find _ open_list) as [found|] eqn:F; [|discriminate].
    inversion Ha0; subst. apply find_some in F as [Hfound _].
    split; simpl.
    - intros x Hx. apply Ho. eapply remove_first_In; eauto.
    - intros e s t Hin. apply in_app_or in Hin as [Hin|[Hin|[]]]; [eauto|].
      inversion Hin; subst. destruct (Ho _ Hfound) as (i & Hi & P).
      exists i, k. repeat split; auto; lia. }
  intros H. inversion H; subst. split; assumption.
Qed.

Lemma for_corefs_positions lines k p corefs : forall st st',
  position_at lines k p ->
  positions_known lines (S k) st ->
  for_corefs p corefs st = Ok st' ->
  positions_known lines (S k) st'.
Proof.
  induction corefs as [|c cs IH]; simpl; intros st st' Hp Hst H.
  - inversion H; subst. exact Hst.
  - bind_inv H. eapply IH; [exact Hp | | exact H].
    eapply process_coref_positions; eauto.
Qed.

Lemma for_lines_positions rest : forall done tokens st tokens' st',
  positions_known (done ++ rest) (List.length done) st ->
  for_lines rest (tokens, st) = Ok (tokens', st') ->
  positions_known (done ++ rest) (List.length (done ++ rest)) st'.
Proof.
  induction rest as [|line rest IH]; intros done tokens st tokens' st' Hst H.
  - simpl in H. inversion H; subst. now rewrite app_nil_r in *.
  - simpl in H. bind_inv H. destruct a as [tokens1 st1].
    apply process_line_Ok in Ha as (pos & corefs & tok & Hp & _ & Hc & _ & _).
    assert (P : position_at (done ++ line :: rest) (List.length done) pos).
    { exists line. split; [|exact Hp]. rewrite nth_error_app2 by lia.
      now rewrite Nat.sub_diag. }
    assert (W : positions_known (done ++ line :: rest) (S (List.length done)) st1).
    { eapply for_corefs_positions; [exact P | | exact Hc].
      eapply positions_known_weaken; [|exact Hst]. lia. }
    replace (done ++ line :: rest) with ((done ++ [line]) ++ rest) in *
      by (rewrite <- app_assoc; reflexivity).
    eapply IH; [|exact H]. rewrite length_app. simpl.
    now rewrite Nat.add_1_r.
Qed.

(** X2. In every Sentence the decoder returns, each reference starts at
    the word position of a line of the segment and ends at the word
    position of the same line or of a later one: no position is
    invented, and no span ends on a line before the one it starts on. *)
Theorem span_positions_from_lines (lines : list string) (s : Sentence.t) :
  process_conll_sentence (Segment lines) = Ok s ->
  forall entity start stop, In (entity, start, stop) (Sentence.references s) ->
  exists i j, (i <= j)%nat /\ (j < List.length lines)%nat /\
              position_at lines i start /\ position_at lines j stop.
Proof.
  intros H. unfold process_conll_sentence in H. bind_inv H.
  destruct a as [tokens [open_list spans]]. inversion H; subst s. simpl.
  assert (I : positions_known ([] ++ lines) (List.length (@nil string)) ([], [])).
  { split; simpl; intros; contradiction. }
  destruct (for_lines_positions lines [] _ _ _ _ I Ha) as [_ Hs].
  exact Hs.
Qed.

Lemma span_positions_from_lines_witness :
  exists i j, (i <= j)%nat /\ (j < 2)%nat /\
    position_at [("t 0 3 a - (1" ++ LF)%string; "t 0 1 b - 1)"] i 3 /\
    position_at [("t 0 3 a - (1" ++ LF)%string; "t 0 1 b - 1)"] j 1.
Proof.
  apply (span_positions_from_lines
           [("t 0 3 a - (1" ++ LF)%string; "t 0 1 b - 1)"]
           {| Sentence.tokens := ["a"; "b"]; Sentence.references := [(1, 3, 1)%Z] |}
           eq_refl 1%Z 3%Z 1%Z).
  left. reflexivity.
Defined.

Lemma process_coref_no_close all p st coref st' :
  closing (p, coref) = false ->
  In (p, coref) all ->
  (forall entity start stop, In (entity, start, stop) (snd st) ->
     start = stop /\ exists c, In (start, c) all /\ immediate_code c entity) ->
  process_coref p st coref = Ok st' ->
  (forall entity start stop, In (entity, start, stop) (snd st') ->
     start = stop /\ exists c, In (start, c) all /\ immediate_code c entity).
Proof.
  unfold closing. simpl. intros Hc Hall Hs. destruct st as [open_list spans].
  simpl in Hs. unfold process_coref.
  destruct (startswith coref "(") eqn:Hst, (endswith coref ")") eqn:Hen;
    simpl in Hc |- *; try discriminate; intros H.
  - bind_inv H. inversion H; subst. simpl. intros e s t Hin.
    apply in_app_or in Hin as [Hin|[Hin|[]]]; [eauto|].
    inversion Hin; subst. split; [reflexivity|]. exists coref.
    split; [exact Hall|]. repeat split; assumption.
  - bind_inv H. inversion H; subst. exact Hs.
  - inversion H; subst. exact Hs.
Qed.

Lemma for_events_no_close all evs : forall st st',
  Forall (fun ev => closing ev = false) evs ->
  (forall ev, In ev evs -> In ev all) ->
  (forall entity start stop, In (entity, start, stop) (snd st) ->
     start = stop /\ exists c, In (start, c) all /\ immediate_code c entity) ->
  for_events evs st = Ok st' ->
  (forall entity start stop, In (entity, start, stop) (snd st') ->
     start = stop /\ exists c, In (start, c) all /\ immediate_code c entity).
Proof.
  induction evs as [|[p c] evs IH]; simpl; intros st st' Hcl Hin Hs H.
  - inversion H; subst. exact Hs.
  - bind_inv H. inversion Hcl; subst.
    eapply (IH a st'); [assumption | auto | | exact H].
    eapply process_coref_no_close; eauto.
Qed.

(** X3. When no code of a segment has the shape of a close code (none
    ends with a closing bracket without starting with an opening one),
    every reference of the Sentence returned starts and ends at the same
    word position, the position of a code [(N)] of its entity. *)
Theorem spans_of_immediate_codes
  (lines : list string) (evs : list event) (s : Sentence.t) :
  lines_events lines = Ok evs ->
  Forall (fun ev => closing ev = false) evs ->
  process_conll_sentence (Segment lines) = Ok s ->
  forall entity start stop, In (entity, start, stop) (Sentence.references s) ->
  start = stop /\ exists c, In (start, c) evs /\ immediate_code c entity.
Proof.
  intros Hevs Hcl H. unfold process_conll_sentence in H. bind_inv H.
  destruct a as [tokens [open_list spans]]. inversion H; subst s. simpl.
  pose proof (for_lines_events _ _ _ _ _ _ Ha Hevs) as Hrun.
  apply (for_events_no_close evs evs ([], []) (open_list, spans) Hcl); auto.
  simpl. intros; contradiction.
Qed.

Lemma spans_of_immediate_codes_witness :
  (4 = 4 /\ exists c, In (4, c) [(4, "(7)"); (4, "(9"); (5, "-")] /\
            immediate_code c 7)%Z.
Proof.
  refine (spans_of_immediate_codes
            [("t 0 4 a - (7)|(9" ++ LF)%string; "t 0 5 b - -"]
            [(4%Z, "(7)"); (4%Z, "(9"); (5%Z, "-")] _ eq_refl _ eq_refl 7%Z 4%Z 4%Z _).
  - repeat constructor.
  - left. reflexivity.
Defined.

Lemma process_line_split st l l' :
  split l = split l' -> process_line st l = process_line st l'.
Proof. intros E. destruct st as [tokens spst]. unfold process_line. now rewrite E. Qed.

Lemma for_lines_split ls ls' : 
  Forall2 (fun l l' => split l = split l') ls ls' ->
  forall st, for_lines ls st = for_lines ls' st.
Proof.
  induction 1 as [|l l' ls ls' E _ IH]; intros st; simpl; [reflexivity|].
  rewrite (process_line_split st l l' E).
  destruct (process_line st l'); simpl; auto.
Qed.

Lemma Forall2_split_strip ls :
  Forall2 (fun l l' => split l = split l') (map strip ls) ls.
Proof. induction ls; simpl; constructor; auto using split_strip. Qed.

(** X4. The decoder reads a line through its fields only: stripping the
    lines of a segment changes nothing in what [process_conll_sentence]
    returns or raises.  So it makes no difference that the chunk reader
    keeps the first line of a segment as read and strips the others. *)
Theorem decoder_ignores_margins (first : string) (rest : list string) :
  process_conll_sentence (Segment (map strip (first :: rest)))
    = process_conll_sentence (Segment (first :: rest)) /\
  process_conll_sentence (Segment (first :: map strip rest))
    = process_conll_sentence (Segment (first :: rest)).
Proof.
  split; unfold process_conll_sentence.
  - now rewrite (for_lines_split _ _ (Forall2_split_strip (first :: rest))).
  - rewrite (for_lines_split (first :: map strip rest) (first :: rest)); [reflexivity|].
    constructor; [reflexivity | apply Forall2_split_strip].
Qed.

Lemma token_of_word line tok : token_of line = Ok tok -> is_word tok = true.
Proof.
  unfold token_of, index. intros H.
  destruct (nth_error (split line) 3) as [f|] eqn:E; [|discriminate].
  simpl in H. inversion H; subst tok. apply nth_error_In in E.
  pose proof (split_words line) as W. rewrite Forall_forall in W.
  specialize (W f E). assert (N : no_space f = true).
  { unfold is_word in W. now apply andb_true_iff in W as [_ N]. }
  now rewrite (strip_no_space f N).
Qed.

Lemma normalize_token_word tok :
  is_word tok = true -> is_word (Sentence.normalize_token tok) = true.
Proof.
  unfold Sentence.normalize_token. intros H.
  destruct (String.eqb tok "-LRB-"); [reflexivity|].
  destruct (String.eqb tok "-RRB-"); [reflexivity | exact H].
Qed.

Lemma normalize_words toks :
  Forall (fun w => is_word w = true) toks ->
  Forall (fun w => is_word w = true) (Sentence.normalize toks).
Proof. induction 1; simpl; constructor; auto using normalize_token_word. Qed.

(** The tokens of a Sentence the decoder returns are words. *)
Lemma decoded_tokens_words lines s :
  process_conll_sentence (Segment lines) = Ok s ->
  Forall (fun w => is_word w = true) (Sentence.tokens s).
Proof.
  intros H. unfold process_conll_sentence in H. bind_inv H.
  destruct a as [tokens [open_list spans]]. inversion H; subst s. simpl.
  destruct (for_lines_tokens _ _ _ _ _ Ha) as (toks & F2 & -> & _). simpl.
  apply normalize_words. clear -F2.
  induction F2; constructor; eauto using token_of_word.
Qed.

(** X5. Every token of a Sentence the decoder returns is a word (not
    empty, without whitespace), so the string of the Sentence
    ([Sentence.__str__], the tokens joined by a space) splits back into
    exactly its tokens. *)
Theorem sentence_str_splits_back (lines : list string) (s : Sentence.t) :
  process_conll_sentence (Segment lines) = Ok s ->
  Forall (fun w => is_word w = true) (Sentence.tokens s) /\
  split (Sentence_str s) = Sentence.tokens s.
Proof.
  intros H. pose proof (decoded_tokens_words _ _ H) as W.
  split; [exact W | now apply split_join_words].
Qed.

Lemma sentence_str_splits_back_witness :
  split "( x )" = ["("; "x"; ")"].
Proof.
  exact (proj2 (sentence_str_splits_back
           [("t 0 0 -LRB- - (1" ++ LF)%string; "t 0 1 x - (2)"; "t 0 2 -RRB- - 1)"]
           {| Sentence.tokens := ["("; "x"; ")"];
              Sentence.references := [(2, 1, 1)%Z; (1, 0, 2)%Z] |} eq_refl)).
Defined.

(* ===================================================================== *)
(** * More on token normalization                                          *)
(* ===================================================================== *)

Lemma normalize_token_not_escape tok :
  is_escape (Sentence.normalize_token tok) = false.
Proof.
  unfold Sentence.normalize_token, is_escape.
  destruct (String.eqb tok "-LRB-") eqn:E1; [reflexivity|].
  destruct (String.eqb tok "-RRB-") eqn:E2; [reflexivity|].
  now rewrite E1, E2.
Qed.

(** X6. [Sentence.normalize] leaves no bracket escape behind, keeps the
    number of tokens, and is the identity on a token list that holds
    neither [-LRB-] nor [-RRB-]. *)
Theorem normalize_only_escapes (toks : list string) :
  Forall (fun tok => is_escape tok = false) (Sentence.normalize toks) /\
  List.length (Sentence.normalize toks) = List.length toks /\
  (Forall (fun tok => is_escape tok = false) toks -> Sentence.normalize toks = toks).
Proof.
  split; [|split; [apply normalize_length|]].
  - induction toks; simpl; constructor; auto using normalize_token_not_escape.
  - induction 1 as [|tok toks Ht _ IH]; simpl; [reflexivity|]. rewrite IH. f_equal.
    unfold is_escape in Ht. apply orb_false_iff in Ht as [E1 E2].
    unfold Sentence.normalize_token. now rewrite E1, E2.
Qed.

Lemma normalize_only_escapes_witness :
  Sentence.normalize ["("; "He"; ")"; "-lrb-"] = ["("; "He"; ")"; "-lrb-"].
Proof.
  apply (proj2 (proj2 (normalize_only_escapes ["("; "He"; ")"; "-lrb-"]))).
  repeat constructor.
Defined.

(* ===================================================================== *)
(** * More on the clusters of a document                                   *)
(* ===================================================================== *)

Lemma indexed_references_inv sents : forall k entity i start stop,
  In (entity, (i, start, stop)) (indexed_references k sents) ->
  (k <= i)%nat /\
  exists sent, nth_error sents (i - k) = Some sent /\
               In (entity, start, stop) (Sentence.references sent).
Proof.
  induction sents as [|s0 sents IH]; simpl; intros k e i a b Hin; [contradiction|].
  apply in_app_or in Hin as [Hin|Hin].
  - apply in_map_iff in Hin as ([[e' a'] b'] & E & Hin). inversion E; subst.
    split; [lia|]. exists s0. rewrite Nat.sub_diag. auto.
  - destruct (IH _ _ _ _ _ Hin) as (Hk & sent & Hn & Hr). split; [lia|].
    exists sent. split; [|exact Hr].
    replace (i - k)%nat with (S (i - S k)) by lia. exact Hn.
Qed.

(** X7. Every mention [(i, start, end)] of a cluster of an assembled
    document comes from a reference [(entity, start, end)] of the
    sentence of index [i]; in particular [i] is the index of a sentence of
    the document. *)
Theorem mentions_come_from_references
  (doc_id : string) (sents : list Sentence.t)
  (c : list mention) (i : nat) (start stop : Z) :
  In c (Document.mentions (process_conll_document doc_id sents)) ->
  In (i, start, stop) c ->
  (i < List.length (Document.tokens (process_conll_document doc_id sents)))%nat /\
  exists sent entity,
    nth_error sents i = Some sent /\
    In (entity, start, stop) (Sentence.references sent).
Proof.
  rewrite mentions_eq_clusters. unfold clusters_by_entity. intros Hc Hm.
  apply in_map_iff in Hc as (e & <- & _). apply cluster_of_In in Hm.
  destruct (indexed_references_inv _ _ _ _ _ _ Hm) as (_ & sent & Hn & Hr).
  rewrite Nat.sub_0_r in Hn. split; [|eauto].
  simpl. rewrite length_map. apply nth_error_Some. congruence.
Qed.

Lemma mentions_come_from_references_witness :
  (1 < 2)%nat /\
  exists sent entity,
    nth_error [Sentence.init ["He"; "ran"] [(2, 0, 0)%Z];
               Sentence.init ["He"; "."] [(2, 0, 0); (3, 0, 1)]%Z] 1 = Some sent /\
    In (entity, 0, 1)%Z (Sentence.references sent).
Proof.
  apply (mentions_come_from_references "(b)"
           [Sentence.init ["He"; "ran"] [(2, 0, 0)%Z];
            Sentence.init ["He"; "."] [(2, 0, 0); (3, 0, 1)]%Z]
           [(1%nat, 0, 1)%Z] 1%nat 0%Z 1%Z).
  - right. left. reflexivity.
  - left. reflexivity.
Defined.

Lemma dict_append_total e m d :
  List.length (List.concat (dict_values (dict_append e m d)))
  = S (List.length (List.concat (dict_values d))).
Proof.
  unfold dict_values. induction d as [|[k ms] d IH]; simpl; [reflexivity|].
  destruct (Z.eqb k e); simpl.
  - rewrite !length_app. simpl. lia.
  - rewrite !length_app, IH. lia.
Qed.

Lemma append_all_total l : forall d,
  List.length (List.concat (dict_values (append_all l d)))
  = (List.length l + List.length (List.concat (dict_values d)))%nat.
Proof.
  induction l as [|[e m] l IH]; intros d; simpl; [reflexivity|].
  rewrite IH, dict_append_total. lia.
Qed.

Lemma indexed_references_length sents : forall k,
  List.length (indexed_references k sents)
  = List.length (List.concat (map Sentence.references sents)).
Proof.
  induction sents as [|s0 sents IH]; intros k; simpl; [reflexivity|].
  rewrite !length_app, length_map, IH. reflexivity.
Qed.

(** X8. Grouping loses and repeats nothing: the clusters of an assembled
    document hold together as many mentions as its sentences hold
    references, and no cluster is empty. *)
Theorem mentions_partition_references (doc_id : string) (sents : list Sentence.t) :
  List.length (List.concat (Document.mentions (process_conll_document doc_id sents)))
    = List.length (List.concat (map Sentence.references sents)) /\
  Forall (fun c => c <> [])
         (Document.mentions (process_conll_document doc_id sents)).
Proof.
  split.
  - unfold process_conll_document. simpl.
    rewrite for_sentences_append_all, append_all_total, indexed_references_length.
    simpl. lia.
  - rewrite mentions_eq_clusters. unfold clusters_by_entity.
    apply Forall_forall. intros c Hc.
    apply in_map_iff in Hc as (e & <- & He).
    apply first_occurrences_In, in_map_iff in He as ([e' m] & E & Hin).
    simpl in E. subst e'. apply cluster_of_In in Hin.
    intros Hnil. rewrite Hnil in Hin. contradiction.
Qed.

Lemma ascending_app l1 l2 :
  ascending l1 -> ascending l2 ->
  (forall x y, In x l1 -> In y l2 -> (x <= y)%nat) ->
  ascending (l1 ++ l2).
Proof.
  induction l1 as [|x l1 IH]; simpl; intros H1 H2 H12; [exact H2|].
  destruct H1 as [Hx H1]. split.
  - intros y Hy. apply in_app_or in Hy as [Hy|Hy]; auto.
  - apply IH; auto.
Qed.

Lemma ascending_filter {A : Type} (g : A -> nat) (f : A -> bool) (l : list A) :
  ascending (map g l) -> ascending (map g (filter f l)).
Proof.
  induction l as [|x l IH]; simpl; [auto|]. intros [Hx Hl].
  destruct (f x); simpl; [split|]; auto.
  intros y Hy. apply Hx. apply in_map_iff in Hy as (z & <- & Hz).
  apply filter_In in Hz as [Hz _]. now apply in_map.
Qed.

Lemma indexed_references_ascending sents : forall k,
  ascending (map (fun p : Z * mention => sentence_of (snd p)) (indexed_references k sents)) /\
  (forall i, In i (map (fun p : Z * mention => sentence_of (snd p))
                       (indexed_references k sents)) -> (k <= i)%nat).
Proof.
  induction sents as [|s0 sents IH]; intros k; simpl; [split; [exact I | contradiction]|].
  destruct (IH (S k)) as [Asc Low].
  assert (Here : forall i,
             In i (map (fun p : Z * mention => sentence_of (snd p))
                       (map (fun r : reference =>
                               let '(entity, start, stop) := r in
                               (entity, (k, start, stop)))
                            (Sentence.references s0))) -> i = k).
  { intros i Hi. apply in_map_iff in Hi as ([e m] & <- & Hi).
    apply in_map_iff in Hi as ([[e' a] b] & E & _). inversion E; subst. reflexivity. }
  rewrite map_app. split.
  - apply ascending_app; [|exact Asc|].
    + clear -Here. induction (Sentence.references s0) as [|[[e a] b] refs IH];
        simpl; [exact I|]. split.
      * intros y Hy. rewrite (Here y); [apply Nat.le_refl | right; exact Hy].
      * apply IH. intros i Hi. apply Here. right. exact Hi.
    + intros x y Hx Hy. rewrite (Here x Hx). specialize (Low y Hy). lia.
  - intros i Hi. apply in_app_or in Hi as [Hi|Hi].
    + rewrite (Here i Hi). apply Nat.le_refl.
    + specialize (Low i Hi). lia.
Qed.

(** X9. Inside every cluster of an assembled document the mentions come
    in the order of the sentences: the sentence index never goes down. *)
Theorem clusters_follow_sentence_order (doc_id : string) (sents : list Sentence.t) :
  Forall (fun c => ascending (map sentence_of c))
         (Document.mentions (process_conll_document doc_id sents)).
Proof.
  rewrite mentions_eq_clusters. unfold clusters_by_entity.
  apply Forall_forall. intros c Hc.
  apply in_map_iff in Hc as (e & <- & _). unfold cluster_of.
  rewrite map_map.
  apply (ascending_filter (fun p : Z * mention => sentence_of (snd p))).
  apply indexed_references_ascending.
Qed.

(* ===================================================================== *)
(** * More on the chunk reader                                             *)
(* ===================================================================== *)

(** The lines the loop of a segment takes: non-blank lines, then the
    blank line that ends them or the end of the file. *)
Lemma read_segment_lines_inv r :
  exists taken,
    fst (read_segment_lines r) = map strip taken /\
    Forall (fun l => is_blank l = false) taken /\
    ((r = taken /\ snd (read_segment_lines r) = []) \/
     exists blank, is_blank blank = true /\
                   r = taken ++ blank :: snd (read_segment_lines r)).
Proof.
  induction r as [|l r (taken & Hls & Hall & Hr)]; simpl.
  - exists []. repeat split; auto.
  - destruct (is_blank l) eqn:B.
    + exists []. simpl. repeat split; auto. right. exists l. auto.
    + destruct (read_segment_lines r) as [ls r'] eqn:R. simpl in *.
      exists (l :: taken). simpl. rewrite Hls. repeat split; auto.
      destruct Hr as [[-> ->]|(blank & Hb & ->)]; [left; auto|].
      right. exists blank. auto.
Qed.

Lemma read_conll_chunk_Segment h ls h' :
  read_conll_chunk h = (Segment ls, h') ->
  exists first r,
    h = first :: r /\ is_token_line first = true /\
    ls = first :: fst (read_segment_lines r) /\
    h' = snd (read_segment_lines r).
Proof.
  destruct h as [|l r]; intros H; [rewrite read_conll_chunk_nil in H; discriminate|].
  destruct (read_conll_chunk_cons l r) as [[_ E]|[[_ E]|[[_ E]|[T E]]]];
    rewrite E in H; try discriminate.
  inversion H; subst. eauto 6.
Qed.

(** X10. A segment returned by the chunk reader is a maximal run of
    non-blank lines: its first line is the first unread line, as read, a
    line that is neither blank nor a marker; the others are the following
    non-blank lines, stripped; no line of the segment is blank; and the
    reader stops after the blank line that follows the run, which it
    consumes, or at the end of the file. *)
Theorem segment_is_run_of_lines (h : handle) (ls : list string) (h' : handle) :
  read_conll_chunk h = (Segment ls, h') ->
  exists first rest,
    ls = first :: map strip rest /\
    is_token_line first = true /\
    Forall (fun l => is_blank l = false) rest /\
    Forall (fun l => is_blank l = false) ls /\
    ((h = first :: rest /\ h' = []) \/
     exists blank, is_blank blank = true /\ h = first :: rest ++ blank :: h').
Proof.
  intros H. apply read_conll_chunk_Segment in H as (first & r & -> & T & -> & ->).
  destruct (read_segment_lines_inv r) as (taken & Hls & Hall & Hr).
  exists first, taken. rewrite Hls. repeat split; auto.
  - constructor.
    + unfold is_token_line in T. apply andb_true_iff in T as [T _].
      apply andb_true_iff in T as [T _]. now apply negb_true_iff in T.
    + clear -Hall. induction Hall; simpl; constructor; auto.
      now rewrite is_blank_strip.
  - destruct Hr as [[-> ->]|(blank & Hb & Hr)]; [left; auto|].
    right. exists blank. split; [exact Hb|]. now rewrite <- Hr.
Qed.

Lemma segment_is_run_of_lines_witness :
  exists first rest,
    [("a 0 0 -LRB- - (1" ++ LF)%string; "a 0 1 -RRB- - 1)"] = first :: map strip rest /\
    is_token_line first = true /\
    Forall (fun l => is_blank l = false) rest /\
    Forall (fun l => is_blank l = false)
      [("a 0 0 -LRB- - (1" ++ LF)%string; "a 0 1 -RRB- - 1)"] /\
    (([("a 0 0 -LRB- - (1" ++ LF)%string; ("a 0 1 -RRB- - 1)" ++ LF)%string; LF;
       ("#end document" ++ LF)%string] = first :: rest /\
      [("#end document" ++ LF)%string] = []) \/
     exists blank, is_blank blank = true /\
       [("a 0 0 -LRB- - (1" ++ LF)%string; ("a 0 1 -RRB- - 1)" ++ LF)%string; LF;
        ("#end document" ++ LF)%string]
       = first :: rest ++ blank :: [("#end document" ++ LF)%string]).
Proof.
  apply (segment_is_run_of_lines
           [("a 0 0 -LRB- - (1" ++ LF)%string; ("a 0 1 -RRB- - 1)" ++ LF)%string; LF;
            ("#end document" ++ LF)%string]).
  reflexivity.
Defined.

(** The lines a call of the chunk reader takes are the first unread
    ones. *)
Lemma read_conll_chunk_used h c h' :
  read_conll_chunk h = (c, h') ->
  exists used, h = used ++ h' /\
    match c with
    | EndFile => (List.length used <= 1)%nat
    | Segment ls =>
        (List.length ls <= List.length used <= S (List.length ls))%nat
    | _ => List.length used = 1%nat
    end.
Proof.
  destruct h as [|l r]; intros H.
  - rewrite read_conll_chunk_nil in H. inversion H; subst. exists []. auto.
  - destruct (read_conll_chunk_cons l r) as [[_ E]|[[_ E]|[[_ E]|[_ E]]]];
      rewrite E in H; inversion H; subst; try (exists [l]; simpl; auto; fail).
    destruct (read_segment_lines_inv r) as (taken & Hls & _ & Hr).
    rewrite Hls. simpl. rewrite length_map.
    destruct Hr as [[-> ->]|(blank & _ & Hr)].
    + exists (l :: taken). rewrite app_nil_r. simpl. split; [reflexivity | lia].
    + exists (l :: taken ++ [blank]). simpl. rewrite <- app_assoc. simpl.
      rewrite <- Hr. split; [reflexivity|]. rewrite length_app. simpl. lia.
Qed.

(** X11. A call of the chunk reader takes the first unread lines and
    nothing else: what is left is the rest of the file in order.  A
    begin or end chunk takes exactly one line, an [EndFile] one line (a
    blank one) or none (at the end of the file), a segment its lines and
    at most one more (the blank line after them). *)
Theorem read_conll_chunk_takes_prefix (h : handle) (c : ConllChunk) (h' : handle) :
  read_conll_chunk h = (c, h') ->
  exists used, h = used ++ h' /\
    match c with
    | EndFile => (List.length used <= 1)%nat
    | Segment ls =>
        (List.length ls <= List.length used <= S (List.length ls))%nat
    | _ => List.length used = 1%nat
    end.
Proof. apply read_conll_chunk_used. Qed.

Lemma read_conll_chunk_takes_prefix_witness :
  exists used,
    tl (readlines example_text) = used ++ [("#end document" ++ LF)%string] /\
    (2 <= List.length used <= 3)%nat.
Proof.
  exact (read_conll_chunk_takes_prefix
           (tl (readlines example_text))
           (Segment [("t 0 0 -LRB- - - - - - - (1" ++ LF)%string;
                     "t 0 1 -RRB- - - - - - - 1)"])
           [("#end document" ++ LF)%string] eq_refl).
Defined.

(** X12. A line that starts with [#begin document] is always read as a
    [BeginDocument], whatever follows on the line; the document id is
    the rest of the line without its surrounding whitespace (the empty
    string when nothing follows).  A line that starts with
    [#end document] is always read as an [EndDocument]; what follows on
    that line is ignored.  Either takes exactly that line. *)
Theorem marker_lines_are_recognized (rest_of_line : string) (r : handle) :
  read_conll_chunk (("#begin document" ++ rest_of_line)%string :: r)
    = (BeginDocument (strip rest_of_line), r) /\
  strip (strip rest_of_line) = strip rest_of_line /\
  read_conll_chunk (("#end document" ++ rest_of_line)%string :: r)
    = (EndDocument, r).
Proof.
  split; [|split].
  - rewrite read_conll_chunk_begin; [reflexivity|].
    destruct rest_of_line; reflexivity.
  - apply strip_idempotent.
  - rewrite read_conll_chunk_end; [reflexivity|].
    destruct rest_of_line; reflexivity.
Qed.

(* ===================================================================== *)
(** * More on the document assembler                                       *)
(* ===================================================================== *)

Lemma read_conll_chunk_sentence_chunk h c h' :
  read_conll_chunk h = (c, h') -> is_segment c = true -> is_sentence_chunk c.
Proof.
  intros H S. destruct c as [d| | |ls]; try discriminate.
  apply read_conll_chunk_Segment in H as (first & r & _ & T & -> & _).
  exists first, (fst (read_segment_lines r)). auto.
Qed.

(** The chunks of a run: the lines they take, and the shape of the
    segments among them. *)
Lemma read_chunks_used n : forall h,
  (exists used, h = used ++ snd (read_chunks n h) /\
     (Forall (fun c => c <> EndFile) (fst (read_chunks n h)) ->
      (n <= List.length used)%nat)) /\
  Forall (fun c => is_segment c = true -> is_sentence_chunk c)
         (fst (read_chunks n h)).
Proof.
  induction n as [|n IH]; intros h; simpl.
  - split; [exists []; auto | constructor].
  - destruct (read_conll_chunk h) as [c h1] eqn:E.
    destruct (IH h1) as [(used1 & E1 & L1) S1].
    destruct (read_chunks n h1) as [cs h2]. simpl in *.
    destruct (read_conll_chunk_used _ _ _ E) as (used0 & E0 & _).
    assert (P : c <> EndFile -> (1 <= List.length used0)%nat).
    { intros Hc. destruct (read_conll_chunk_progress _ _ _ E) as [L|(_ & ? & _)];
        [|contradiction].
      apply (f_equal (@List.length string)) in E0. rewrite length_app in E0. lia. }
    split.
    + exists (used0 ++ used1). rewrite <- app_assoc, <- E1. split; [exact E0|].
      intros F. inversion F as [|? ? Hc Hcs]; subst. specialize (L1 Hcs).
      specialize (P Hc). rewrite length_app. lia.
    + constructor; [|exact S1]. eauto using read_conll_chunk_sentence_chunk.
Qed.

Lemma read_conll_chunk_doc_id h d h1 :
  read_conll_chunk h = (BeginDocument d, h1) -> strip d = d.
Proof.
  destruct h as [|l r]; intros H; [rewrite read_conll_chunk_nil in H; discriminate|].
  destruct (read_conll_chunk_cons l r) as [[_ E]|[[_ E]|[[_ E]|[_ E]]]];
    rewrite E in H; inversion H. apply strip_idempotent.
Qed.

(** What a successful call of the assembler has read. *)
Lemma read_conll_document_Some h d chunks h' :
  read_conll_document h = Ok (Some (d, chunks), h') ->
  Forall is_sentence_chunk chunks /\
  strip d = d /\
  exists used, h = used ++ h' /\ (2 + List.length chunks <= List.length used)%nat.
Proof.
  intros H. pose proof (read_conll_document_cases h) as Hcases.
  destruct (read_conll_chunk h) as [first h1] eqn:E1.
  destruct first as [d0| | |ls]; try (rewrite Hcases in H; discriminate).
  destruct Hcases as (segs & c & h2 & Hall & _ & Hread & Hh & _ & Hdoc).
  rewrite Hdoc in H. destruct c; try discriminate. inversion H; subst. clear H.
  destruct (read_chunks_used (S (List.length chunks)) h1) as [(used1 & U1 & L1) S1].
  rewrite Hread in L1, S1.
  destruct (read_conll_chunk_used _ _ _ E1) as (used0 & U0 & L0). simpl in L0.
  split; [|split; [eapply read_conll_chunk_doc_id; eauto|]].
  - apply Forall_app in S1 as [S1 _]. rewrite Forall_forall in *.
    intros c Hc. apply S1; auto.
  - exists (used0 ++ used1). rewrite <- app_assoc, <- U1. split; [exact U0|].
    rewrite length_app, L0.
    assert (L : (S (List.length chunks) <= List.length used1)%nat).
    { apply L1. apply Forall_app. split; [|repeat constructor; discriminate].
      rewrite Forall_forall in *. intros c Hc E. specialize (Hall c Hc).
      subst c. discriminate. }
    lia.
Qed.

(** X13. When the assembler returns a document, every chunk it returns
    is a segment with at least one line, whose first line is a token
    line; the document id carries no surrounding whitespace; and the
    assembler has taken the first unread lines of the file, at least two
    more than it returns segments (the begin line and the end line). *)
Theorem read_conll_document_returns_segments
  (h : handle) (d : string) (chunks : list ConllChunk) (h' : handle) :
  read_conll_document h = Ok (Some (d, chunks), h') ->
  Forall is_sentence_chunk chunks /\
  strip d = d /\
  exists used, h = used ++ h' /\ (2 + List.length chunks <= List.length used)%nat.
Proof. apply read_conll_document_Some. Qed.

Lemma read_conll_document_returns_segments_witness :
  Forall is_sentence_chunk
    [Segment [("a 0 0 -LRB- - (1" ++ LF)%string; "a 0 1 -RRB- - 1)"]] /\
  strip "(a); part 000" = "(a); part 000" /\
  exists used,
    readlines two_documents_text
    = used ++ skipn 5 (readlines two_documents_text) /\
    (2 + 1 <= List.length used)%nat.
Proof.
  exact (read_conll_document_returns_segments
           (readlines two_documents_text) "(a); part 000"
           [Segment [("a 0 0 -LRB- - (1" ++ LF)%string; "a 0 1 -RRB- - 1)"]]
           (skipn 5 (readlines two_documents_text)) eq_refl).
Defined.

(* ===================================================================== *)
(** * More on the corpus iterator                                          *)
(* ===================================================================== *)















(** Pulling [pulls + more] times is pulling [pulls] times and, if
    the generator is then suspended at a [yield], pulling [more] times
    from where the file stands; a generator that has ended stays ended,
    with the same documents. *)
Lemma read_conll_file_resumes (pulls more : nat) (h : handle) :
  read_conll_file (pulls + more) h =
  match snd (read_conll_file pulls h) with
  | Suspended h' =>
      (fst (read_conll_file pulls h) ++ fst (read_conll_file more h'),
       snd (read_conll_file more h'))
  | _ => read_conll_file pulls h
  end.
Proof.
  revert h. induction pulls as [|pulls IH]; intros h; simpl.
  - destruct (read_conll_file more h); reflexivity.
  - destruct (resume h) as [doc h1| |e]; try reflexivity.
    rewrite IH. destruct (read_conll_file pulls h1) as [docs st]. simpl.
    destruct st; reflexivity.
Qed.

(** Reading a well-formed file followed by more lines. *)
Lemma read_conll_file_app h docs :
  well_formed h docs ->
  forall tail more,
    read_conll_file (List.length docs + more) (h ++ tail)
    = (docs ++ fst (read_conll_file more tail), snd (read_conll_file more tail)).
Proof.
  induction 1 as [|begin_line body chunks sents end_line rest docs
                    Hb Hbody Hsents He _ IH]; intros tail more.
  - simpl. destruct (read_conll_file more tail); reflexivity.
  - replace ((begin_line :: body ++ end_line :: rest) ++ tail)
      with (begin_line :: body ++ end_line :: (rest ++ tail))
      by (simpl; rewrite <- app_assoc; reflexivity).
    cbn [List.length Nat.add read_conll_file].
    rewrite (resume_document _ _ _ _ _ (rest ++ tail) Hb Hbody Hsents He).
    rewrite IH. reflexivity.
Qed.

(** X15. When a file starts with well-formed documents, the generator
    yields them, in order, and goes on with the lines after them as if
    they were a file of their own: what these lines yield comes next, and
    how they end (a blank line or the end of the file exhausts the
    generator, a malformed document raises) is how the whole file ends.
    The documents before a malformed one are not lost. *)
Theorem read_conll_file_after_well_formed
  (h : handle) (docs : list Document.t) (tail : handle) (more : nat) :
  well_formed h docs ->
  read_conll_file (List.length docs + more) (h ++ tail)
  = (docs ++ fst (read_conll_file more tail), snd (read_conll_file more tail)).
Proof. intros H. now apply read_conll_file_app. Qed.

Lemma read_conll_file_after_well_formed_witness :
  read_conll_file 2 (readlines truncated_text)
  = ([Document.init "(a); part 000" [["("; ")"]] [[(0%nat, 0, 1)%Z]]],
     Raised (Exception "eof")).
Proof.
  refine (read_conll_file_after_well_formed
            (firstn 5 (readlines truncated_text))
            [Document.init "(a); part 000" [["("; ")"]] [[(0%nat, 0, 1)%Z]]]
            (skipn 5 (readlines truncated_text)) 1%nat _).
  apply (well_formed_document ("#begin document (a); part 000" ++ LF)%string
           [("a 0 0 -LRB- - (1" ++ LF)%string; ("a 0 1 -RRB- - 1)" ++ LF)%string; LF]
           [Segment [("a 0 0 -LRB- - (1" ++ LF)%string; "a 0 1 -RRB- - 1)"]]
           [Sentence.init ["-LRB-"; "-RRB-"] [(1, 0, 1)%Z]]
           ("#end document" ++ LF)%string [] []).
  - reflexivity.
  - apply (sentences_cons ("a 0 0 -LRB- - (1" ++ LF)%string
             [("a 0 1 -RRB- - 1)" ++ LF)%string] LF [] []);
      [reflexivity | repeat constructor | reflexivity | constructor].
  - reflexivity.
  - reflexivity.
  - constructor.
Defined.

Lemma comprehension_Ok {A B : Type} (f : A -> result B) (l : list A) : forall ys,
  comprehension f l = Ok ys -> Forall2 (fun x y => f x = Ok y) l ys.
Proof.
  induction l as [|x l IH]; simpl; intros ys H.
  - inversion H. constructor.
  - bind_inv H. bind_inv H. inversion H; subst. constructor; auto.
Qed.

(** The tokens of a decoded sentence: one per line, normalized. *)
Lemma decoded_tokens_normalized lines s :
  process_conll_sentence (Segment lines) = Ok s ->
  exists toks, Sentence.tokens s = Sentence.normalize toks /\
               List.length toks = List.length lines.
Proof.
  intros H. unfold process_conll_sentence in H. bind_inv H.
  destruct a as [tokens [open_list spans]]. inversion H; subst s. simpl.
  destruct (for_lines_tokens _ _ _ _ _ Ha) as (toks & F2 & -> & _). simpl.
  exists toks. split; [reflexivity|]. clear -F2. induction F2; simpl; congruence.
Qed.

Lemma decoded_sentence_tokens c s :
  is_sentence_chunk c ->
  process_conll_sentence c = Ok s ->
  Sentence.tokens s <> [] /\
  Forall (fun w => is_word w = true) (Sentence.tokens s) /\
  Forall (fun w => is_escape w = false) (Sentence.tokens s).
Proof.
  intros (first & rest & -> & _) H.
  destruct (decoded_tokens_normalized _ _ H) as (toks & E & L).
  split; [|split].
  - intros N. rewrite N in E. apply (f_equal (@List.length string)) in E.
    rewrite normalize_length, L in E. discriminate.
  - eapply decoded_tokens_words; eauto.
  - rewrite E. clear. induction toks; simpl; constructor;
      auto using normalize_token_not_escape.
Qed.

Lemma clusters_invariant doc_id sents :
  Forall (fun c => c <> [] /\
                   Forall (fun m => (sentence_of m < List.length sents)%nat) c)
         (Document.mentions (process_conll_document doc_id sents)).
Proof.
  rewrite mentions_eq_clusters. unfold clusters_by_entity.
  apply Forall_forall. intros c Hc.
  apply in_map_iff in Hc as (e & <- & He). split.
  - apply first_occurrences_In, in_map_iff in He as ([e' m] & E & Hin).
    simpl in E. subst e'. apply cluster_of_In in Hin.
    intros Hnil. rewrite Hnil in Hin. contradiction.
  - apply Forall_forall. intros [[i a] b] Hm. apply cluster_of_In in Hm.
    destruct (indexed_references_inv _ _ _ _ _ _ Hm) as (_ & sent & Hn & _).
    rewrite Nat.sub_0_r in Hn. unfold sentence_of. simpl.
    apply nth_error_Some. congruence.
Qed.

Lemma resume_Yield_invariant h doc h' :
  resume h = Yield doc h' -> document_invariant doc.
Proof.
  unfold resume.
  destruct (read_conll_document h) as [[[[d chunks]|] h1]|e0] eqn:D; try discriminate.
  destruct (comprehension process_conll_sentence chunks) as [sents|e1] eqn:C;
    [|discriminate].
  intros H. inversion H; subst. clear H.
  apply read_conll_document_Some in D as (Hall & Hd & _).
  apply comprehension_Ok in C.
  split; [exact Hd|]. split.
  - simpl. clear -Hall C. induction C as [|c s chunks sents Hs _ IH]; simpl; [constructor|].
    inversion Hall; subst. constructor; [|auto].
    eapply decoded_sentence_tokens; eauto.
  - pose proof (clusters_invariant d sents) as K.
    unfold process_conll_document in *. simpl in *. now rewrite length_map.
Qed.

(** X16. Every document the generator yields, from any file, is sound:
    its id carries no surrounding whitespace; each of its sentences has
    at least one token, every token a word, none a bracket escape; no
    cluster is empty, and every mention points to one of its
    sentences. *)
Theorem yielded_documents_are_sound (pulls : nat) (h : handle) :
  Forall document_invariant (fst (read_conll_file pulls h)).
Proof.
  revert h. induction pulls as [|pulls IH]; intros h; simpl; [constructor|].
  destruct (resume h) as [doc h'| |e] eqn:R; try constructor.
  specialize (IH h'). destruct (read_conll_file pulls h') as [docs st]. simpl in *.
  constructor; [eapply resume_Yield_invariant; eauto | exact IH].
Qed.

(* ===================================================================== *)
(** * The outcome of a close code                                          *)
(* ===================================================================== *)

(** X17. A close code [N)] has two outcomes and no other.  With no entry
    for [N] in the open list it raises [StopIteration] and nothing else.
    Otherwise it succeeds: it emits one span, from the start of the first
    entry for [N] to the current word position, and removes that entry
    alone: the list is one shorter, the other entries for [N] and the
    entries of every other entity stay as they are, in order. *)
Theorem close_code_outcome
  (p : Z) (open_list : list open_entry) (spans : list reference)
  (coref : string) (N : Z) :
  close_code coref N ->
  (first_open N open_list = None /\
   process_coref p (open_list, spans) coref = Raise StopIteration) \/
  (exists start open_list',
     first_open N open_list = Some (N, start) /\
     process_coref p (open_list, spans) coref
       = Ok (open_list', spans ++ [(N, start, p)]) /\
     List.length open_list = S (List.length open_list') /\
     entries_of N open_list = (N, start) :: entries_of N open_list' /\
     forall other, other <> N ->
       entries_of other open_list' = entries_of other open_list).
Proof.
  intros (Hs & He & Hi). unfold process_coref. rewrite Hs, He, Hi. simpl.
  unfold next_such. fold (first_open N open_list). rewrite first_open_entries.
  destruct (entries_of N open_list) as [|x rest] eqn:E; simpl; [left; auto|].
  right. assert (Fx : fst x = N).
  { assert (Hin : In x (entries_of N open_list)) by (rewrite E; left; reflexivity).
    apply filter_In in Hin as [_ Hin]. now apply Z.eqb_eq. }
  destruct x as [e start]. simpl in Fx. subst e. simpl.
  destruct (remove_first_entries _ _ _ _ E) as (l' & R & Hl').
  exists start, l'. rewrite R. simpl. repeat split.
  - eapply remove_first_length; eauto.
  - now rewrite Hl'.
  - intros other Hne. eapply remove_first_other; [|exact R]. simpl. congruence.
Qed.

Lemma close_code_outcome_witness :
  (first_open 5 [(5, 2); (8, 1); (5, 0)]%Z = None /\
   process_coref 3 ([(5, 2); (8, 1); (5, 0)]%Z, []) "5)" = Raise StopIteration) \/
  (exists start open_list',
     first_open 5 [(5, 2); (8, 1); (5, 0)]%Z = Some (5%Z, start) /\
     process_coref 3 ([(5, 2); (8, 1); (5, 0)]%Z, []) "5)"
       = Ok (open_list', [] ++ [(5%Z, start, 3%Z)]) /\
     List.length [(5, 2); (8, 1); (5, 0)]%Z = S (List.length open_list') /\
     entries_of 5 [(5, 2); (8, 1); (5, 0)]%Z = (5%Z, start) :: entries_of 5 open_list' /\
     forall other, other <> 5%Z ->
       entries_of other open_list' = entries_of other [(5, 2); (8, 1); (5, 0)]%Z).
Proof.
  apply (close_code_outcome 3 [(5, 2); (8, 1); (5, 0)]%Z [] "5)" 5).
  repeat split; reflexivity.
Defined.
